(** * VideoScrollSequence: frame preloading and scroll-to-frame mapping

    A shallow embedding of the [VideoScrollSequence] React component
    (the frame loader [loadImages], the painter [drawFrame] and the
    ScrollTrigger binding effect) together with the properties its
    specification states about them.

    Modelling conventions.
    - A JavaScript [number] is a rational ([Q]): every finite double is a
      rational.  The product that [onUpdate] feeds to [Math.floor] is
      rounded to the nearest double ([round_double]); [NaN] and the
      infinities are not modelled.  [totalFrames], source indices and array
      positions are [nat], [totalFrames] within the safe integers; pixel
      dimensions are [N].
    - A JavaScript array with holes is a [list (option A)]; writing past the
      end extends the array with holes, as JavaScript does.
    - Effects are explicit: the console is a list of entries, a canvas
      carries the list of calls made on it, the loader is a state record
      stepped by the [load]/[error] events of the images. *)

From stdpp Require Import base list strings pretty.
From Stdlib Require Import QArith Qround Qpower Lia Lqa SpecFloat.

Local Open Scope Q_scope.

(** ** JavaScript numbers and arrays *)

Definition num (n : nat) : Q := inject_Z (Z.of_nat n).

Definition Math_floor (x : Q) : Q := inject_Z (Qfloor x).
Definition Math_max (a b : Q) : Q := if Qle_bool a b then b else a.
Definition Math_min (a b : Q) : Q := if Qle_bool a b then a else b.

(** *** Rounding to a double

    The value of an arithmetic operation is the exact result rounded to the
    nearest binary64 number, ties to the even significand: 53 significant
    bits, exponents from -1022 up, subnormals below.  There is no overflow
    to infinity here: results beyond the largest double keep 53 bits. *)

(** Nearest integer, ties to even. *)
Definition round_half_even (t : Q) : Z :=
  let f := Qfloor t in
  match Qcompare (t - inject_Z f) (1 # 2) with
  | Lt => f
  | Gt => (f + 1)%Z
  | Eq => if Z.even f then f else (f + 1)%Z
  end.

(** The [e] with [2^e <= x < 2^(e+1)], for a positive [x]. *)
Definition exponent (x : Q) : Z :=
  let e0 := (Z.log2 (Qnum x) - Z.log2 (Zpos (Qden x)))%Z in
  if Qle_bool (2 ^ e0) x then e0 else (e0 - 1)%Z.

(** Distance between the doubles around a positive [x]. *)
Definition ulp (x : Q) : Q := 2 ^ (Z.max (exponent x) (-1022) - 52).

Definition round_pos (x : Q) : Q :=
  inject_Z (round_half_even (x / ulp x)) * ulp x.

Definition round_double (x : Q) : Q :=
  match Qnum x with
  | Z0 => 0
  | Zpos _ => round_pos x
  | Zneg _ => - round_pos (- x)
  end.

(** [x] is the value of a double. *)
Definition is_double (x : Q) : bool := Qeq_bool (round_double x) x.

(** The value of a finite binary64 number of the Standard Library's
    specification of IEEE arithmetic, against which [round_double] is
    checked below. *)
Definition SF2Q (f : spec_float) : Q :=
  match f with
  | S754_finite s m e =>
      (if s then -1 else 1) * inject_Z (Zpos m) * 2 ^ e
  | _ => 0
  end.

Definition binary64_mul : spec_float -> spec_float -> spec_float :=
  SFmul 53 1024.
Definition binary64_div : spec_float -> spec_float -> spec_float :=
  SFdiv 53 1024.

(** [2^-53], the distance from 1 to the double below it. *)
Definition gap_below_1 : Q := 1 # 9007199254740992.

(** [Number.MAX_SAFE_INTEGER], [2^53 - 1]. *)
Definition MAX_SAFE_INTEGER : Z := 9007199254740991.

(** [a[x]] for a number [x]: an element only at a non-negative integer
    below the length; [undefined] ([None]) anywhere else. *)
Definition array_get {A} (a : list A) (x : Q) : option A :=
  match Qred x with
  | Qmake (Zneg _) _ => None
  | Qmake n 1%positive => a !! Z.to_nat n
  | Qmake _ _ => None
  end.

(** [a[k]] on an array with holes: a hole reads as [undefined]. *)
Definition slot {A} (a : list (option A)) (k : nat) : option A :=
  mjoin (a !! k).

(** [a[k] = v]: in range the slot is overwritten, out of range the array
    grows and the positions in between are holes. *)
Definition array_set {A} (a : list (option A)) (k : nat) (v : A)
  : list (option A) :=
  if decide (k < length a)%nat then <[k := Some v]> a
  else a ++ replicate (k - length a) None ++ [Some v].

(** [a.filter(Boolean)] on an array of objects: holes are skipped. *)
Definition filter_Boolean {A} (a : list (option A)) : list A := omap id a.

(** ** Props, images, canvas *)

(** [totalFrames] is a count the loader's loop counter reaches by [i++]:
    a safe integer, so that it and [totalFrames - 1] are exact doubles. *)
Record Props := {
  firstFrameSrc : string;
  totalFrames : nat;
  totalFrames_safe : (Z.of_nat totalFrames <=? MAX_SAFE_INTEGER)%Z = true;
  getFramePath : nat -> string;
  scrollSensitivity : Q;
  pinHeight : string
}.

Definition DEFAULT_FRAME_COUNT : nat := 48.

Definition DEFAULT_FRAME_PATH_FORMAT (index : nat) : string :=
  ("https://static-res-www.imoo.com/US/images/products/x10/pc/animate1-1/animate1-"
   +:+ pretty index +:+ ".webp")%string.

(** The component as [App] mounts it: every optional prop at its default. *)
Definition App_props : Props :=
  {| firstFrameSrc :=
       "https://static-res-www.imoo.com/US/images/products/x10/pc/animate1-1/animate1-1.webp";
     totalFrames := DEFAULT_FRAME_COUNT;
     totalFrames_safe := eq_refl;
     getFramePath := DEFAULT_FRAME_PATH_FORMAT;
     scrollSensitivity := 15;
     pinHeight := "100vh" |}.

Record HTMLImageElement := {
  src : string;
  img_width : N;
  img_height : N
}.

Inductive CanvasCall :=
| SetWidth (w : N)
| SetHeight (h : N)
| ClearRect (x y w h : N)
| DrawImage (img : HTMLImageElement) (x y w h : N).

(** A canvas with its 2d context: the backing buffer's dimensions and the
    calls performed so far (oldest first). *)
Record HTMLCanvasElement := {
  width : N;
  height : N;
  calls : list CanvasCall;
  has_context2d : bool
}.

Definition set_width (w : N) (c : HTMLCanvasElement) : HTMLCanvasElement :=
  {| width := w; height := height c;
     calls := calls c ++ [SetWidth w]; has_context2d := has_context2d c |}.

Definition set_height (h : N) (c : HTMLCanvasElement) : HTMLCanvasElement :=
  {| width := width c; height := h;
     calls := calls c ++ [SetHeight h]; has_context2d := has_context2d c |}.

Definition context_call (k : CanvasCall) (c : HTMLCanvasElement)
  : HTMLCanvasElement :=
  {| width := width c; height := height c;
     calls := calls c ++ [k]; has_context2d := has_context2d c |}.

Definition is_resize (k : CanvasCall) : bool :=
  match k with
  | SetWidth _ | SetHeight _ => true
  | _ => false
  end.

(** The buffer (re)allocations a canvas has gone through. *)
Definition resizes (c : HTMLCanvasElement) : list CanvasCall :=
  filter (fun k => is_resize k = true) (calls c).

Definition dims (c : HTMLCanvasElement) : N * N := (width c, height c).
Definition img_dims (i : HTMLImageElement) : N * N :=
  (img_width i, img_height i).

(** [canvas.width !== imgWidth || canvas.height !== imgHeight]. *)
Definition needs_resize (c : HTMLCanvasElement) (img : HTMLImageElement)
  : bool :=
  negb (width c =? img_width img)%N || negb (height c =? img_height img)%N.

(** ** Scroll-synced renderer: [drawFrame] and [onUpdate] *)

Definition totalScrollDistance (P : Props) : Q :=
  round_double (num (totalFrames P) * scrollSensitivity P).

Definition frameIndex (P : Props) (index : Q) : Q :=
  Math_min (num (totalFrames P) - 1) (Math_max 0 (Math_floor index)).

Definition drawFrame (P : Props) (imageFrames : list HTMLImageElement)
    (index : Q) (canvas : HTMLCanvasElement) : HTMLCanvasElement :=
  match array_get imageFrames (frameIndex P index) with
  | Some img =>
      let imgWidth := img_width img in
      let imgHeight := img_height img in
      let canvas1 :=
        if negb (width canvas =? imgWidth)%N
           || negb (height canvas =? imgHeight)%N
        then set_height imgHeight (set_width imgWidth canvas)
        else canvas in
      context_call (DrawImage img 0 0 imgWidth imgHeight)
        (context_call (ClearRect 0 0 imgWidth imgHeight) canvas1)
  | None => canvas
  end.

(** [newIndex] of the [onUpdate] callback: the product as a double. *)
Definition newIndex (P : Props) (scrollProgress : Q) : Q :=
  round_double (scrollProgress * (num (totalFrames P) - 1)).

Definition onUpdate (P : Props) (imageFrames : list HTMLImageElement)
    (scrollProgress : Q) (canvas : HTMLCanvasElement) : HTMLCanvasElement :=
  drawFrame P imageFrames (newIndex P scrollProgress) canvas.

(** The progress-to-frame mapping: [onUpdate]'s product followed by
    [drawFrame]'s clamp. *)
Definition mapProgressToFrame (P : Props) (progress : Q) : Q :=
  frameIndex P (newIndex P progress).

(** ** Frame loader: [loadImages] *)

Inductive ConsoleEntry :=
| ErrorInitialFrame (url : string)
| ErrorImage (path : string)
| WarnIncomplete (loaded total : nat).

(** How the fetch behind one [Image] ends. *)
Inductive FetchResult :=
| Loaded (w h : N)
| Failed.

(** An event: the image for source index [i] fires [load] or [error]. *)
Definition Event : Type := nat * FetchResult.

Record Loader := {
  loadedImages : list (option HTMLImageElement);
  imagePromises : list nat;       (* source indices still unresolved *)
  console : list ConsoleEntry;
  imageFrames : list HTMLImageElement;
  isLoading : bool;
  isFirstImageLoaded : bool
}.

(** URL behind source index [i]: 1 is the first frame, the others come
    from [getFramePath]. *)
Definition framePath (P : Props) (i : nat) : string :=
  if decide (i = 1%nat) then firstFrameSrc P else getFramePath P i.

(** Source indices for which a fetch is issued: the first frame, then the
    loop [for (let i = 2; i <= totalFrames; i++)]. *)
Definition issued (P : Props) : list nat :=
  1%nat :: seq 2 (totalFrames P - 1).

(** State right after [loadImages] has issued every fetch and suspended on
    [Promise.all]. *)
Definition loadImages_start (P : Props) : Loader :=
  {| loadedImages := [];
     imagePromises := issued P;
     console := [];
     imageFrames := [];
     isLoading := true;
     isFirstImageLoaded := false |}.

Definition resolve (i : nat) (r : Loader) : Loader :=
  {| loadedImages := loadedImages r;
     imagePromises := filter (fun j => j <> i) (imagePromises r);
     console := console r;
     imageFrames := imageFrames r;
     isLoading := isLoading r;
     isFirstImageLoaded := isFirstImageLoaded r |}.

Definition console_log (e : ConsoleEntry) (r : Loader) : Loader :=
  {| loadedImages := loadedImages r;
     imagePromises := imagePromises r;
     console := console r ++ [e];
     imageFrames := imageFrames r;
     isLoading := isLoading r;
     isFirstImageLoaded := isFirstImageLoaded r |}.

Definition store (k : nat) (img : HTMLImageElement) (r : Loader) : Loader :=
  {| loadedImages := array_set (loadedImages r) k img;
     imagePromises := imagePromises r;
     console := console r;
     imageFrames := imageFrames r;
     isLoading := isLoading r;
     isFirstImageLoaded := isFirstImageLoaded r |}.

Definition setIsFirstImageLoaded (b : bool) (r : Loader) : Loader :=
  {| loadedImages := loadedImages r;
     imagePromises := imagePromises r;
     console := console r;
     imageFrames := imageFrames r;
     isLoading := isLoading r;
     isFirstImageLoaded := b |}.

Definition setImageFrames (l : list HTMLImageElement) (r : Loader) : Loader :=
  {| loadedImages := loadedImages r;
     imagePromises := imagePromises r;
     console := console r;
     imageFrames := l;
     isLoading := isLoading r;
     isFirstImageLoaded := isFirstImageLoaded r |}.

Definition setIsLoading (b : bool) (r : Loader) : Loader :=
  {| loadedImages := loadedImages r;
     imagePromises := imagePromises r;
     console := console r;
     imageFrames := imageFrames r;
     isLoading := b;
     isFirstImageLoaded := isFirstImageLoaded r |}.

Definition mkImage (P : Props) (i : nat) (w h : N) : HTMLImageElement :=
  {| src := framePath P i; img_width := w; img_height := h |}.

(** The [onload] / [onerror] handlers of the image for source index [i]. *)
Definition handler (P : Props) (i : nat) (res : FetchResult) (r : Loader)
  : Loader :=
  if decide (i = 1%nat) then
    match res with
    | Loaded w h =>
        resolve i (setIsFirstImageLoaded true (store 0 (mkImage P i w h) r))
    | Failed =>
        resolve i (console_log (ErrorInitialFrame (firstFrameSrc P)) r)
    end
  else
    match res with
    | Loaded w h => resolve i (store (i - 1) (mkImage P i w h) r)
    | Failed => resolve i (console_log (ErrorImage (getFramePath P i)) r)
    end.

(** What follows [await Promise.all(imagePromises)]. *)
Definition settle (P : Props) (r : Loader) : Loader :=
  let successfulLoads := filter_Boolean (loadedImages r) in
  let r1 := setImageFrames successfulLoads r in
  if decide (length successfulLoads = totalFrames P) then
    setIsLoading false r1
  else
    setIsLoading false
      (console_log (WarnIncomplete (length successfulLoads) (totalFrames P))
         r1).

(** One event reaching the loader.  An image fires exactly one of [load]
    and [error], so an event for a promise that is not pending does not
    occur and is ignored; when the last pending promise resolves,
    [Promise.all] resolves and the rest of [loadImages] runs. *)
Definition deliver (P : Props) (r : Loader) (ev : Event) : Loader :=
  if decide (ev.1 ∈ imagePromises r) then
    let r1 := handler P ev.1 ev.2 r in
    match imagePromises r1 with
    | [] => settle P r1
    | _ :: _ => r1
    end
  else r.

(** [loadImages] run against the events [evs], in their order of arrival. *)
Definition loadImages (P : Props) (evs : list Event) : Loader :=
  foldl (deliver P) (loadImages_start P) evs.

(** The handlers of [evs] alone, without the continuation of
    [Promise.all]. *)
Definition handlers (P : Props) (evs : list Event) : Loader :=
  foldl (fun r ev => handler P ev.1 ev.2 r) (loadImages_start P) evs.

(** How the fetch of source index [i] ended according to [evs]. *)
Fixpoint outcome (evs : list Event) (i : nat) : option FetchResult :=
  match evs with
  | [] => None
  | ev :: rest => if decide (ev.1 = i) then Some ev.2 else outcome rest i
  end.

(** The image the fetch of source index [i] produced, if it succeeded. *)
Definition loaded_image (P : Props) (evs : list Event) (i : nat)
  : option HTMLImageElement :=
  match outcome evs i with
  | Some (Loaded w h) => Some (mkImage P i w h)
  | _ => None
  end.

(** [evs] can be observed on a load: every event belongs to an issued
    fetch and no image fires twice. *)
Definition observable (P : Props) (evs : list Event) : Prop :=
  NoDup evs.*1 /\ forall i, i ∈ evs.*1 -> i ∈ issued P.

(** [evs] resolves every issued fetch, each once, in some order. *)
Definition settles (P : Props) (evs : list Event) : Prop :=
  evs.*1 ≡ₚ issued P.

(** Views used to state the loader's properties. *)

Definition is_loaded (res : FetchResult) : bool :=
  match res with Loaded _ _ => true | Failed => false end.

(** Number of fetches of [evs] that resolved with success. *)
Definition successCount (evs : list Event) : nat :=
  length (filter (fun ev => is_loaded ev.2 = true) evs).

Definition is_warning (e : ConsoleEntry) : bool :=
  match e with WarnIncomplete _ _ => true | _ => false end.

Definition warnings (c : list ConsoleEntry) : list ConsoleEntry :=
  filter (fun e => is_warning e = true) c.

Definition errors (c : list ConsoleEntry) : list ConsoleEntry :=
  filter (fun e => is_warning e = false) c.

(** The [console.error] entry a failing fetch of source index [i] writes. *)
Definition error_entry (P : Props) (i : nat) : ConsoleEntry :=
  if decide (i = 1%nat) then ErrorInitialFrame (firstFrameSrc P)
  else ErrorImage (getFramePath P i).

(** The specification's load state, read off the component's state:
    [Loading] while [isLoading], then [Ready] when the frame set has
    [totalFrames] elements and [PartiallyReady] otherwise. *)
Inductive LoadState :=
| Loading
| Ready (count : nat)
| PartiallyReady (count : nat).

Definition loadState (P : Props) (r : Loader) : LoadState :=
  if isLoading r then Loading
  else if decide (length (imageFrames r) = totalFrames P)
       then Ready (length (imageFrames r))
       else PartiallyReady (length (imageFrames r)).

(** ** The ScrollTrigger binding effect *)

Record TextBox := {
  tb_y : Q;
  tb_opacity : Q
}.

Record Refs := {
  canvasRef : option HTMLCanvasElement;
  containerRef : bool;
  textBoxRef : option TextBox
}.

Inductive Ease := ease_none | ease_power2_out.
Inductive Target := frameObject | textBox.

(** A [tl.to(target, vars, position)] call: the animated properties, the
    ease, the duration when the call gives one, and the position. *)
Record Tween := {
  target : Target;
  vars : list (string * Q);
  ease : Ease;
  duration : option Q;
  position : Q
}.

Record ScrollTriggerVars := {
  pin : bool;
  end_offset : Q;
  scrub : Q
}.

Record Timeline := {
  scrollTrigger : ScrollTriggerVars;
  children : list Tween
}.

Record Binding := {
  bound_canvas : HTMLCanvasElement;
  bound_textBox : TextBox;
  tl : Timeline
}.

Definition START_FRAME : Q := 30.

(** [START_FRAME / (totalFrames - 1)], handed to the engine as it is; the
    quotient is kept exact.  For [totalFrames = 1] JavaScript yields
    [Infinity] where [Q] yields 0. *)
Definition startTime (P : Props) : Q :=
  START_FRAME / (num (totalFrames P) - 1).

(** [gsap.set(textBox, {y: 100, opacity: 0})]. *)
Definition gsap_set_textBox (y o : Q) (t : TextBox) : TextBox :=
  {| tb_y := y; tb_opacity := o |}.

(** The second effect of the component.  [None]: the effect returned
    before binding anything. *)
Definition bindEffect (P : Props) (r : Loader) (refs : Refs)
  : option Binding :=
  if isLoading r
     || negb (length (imageFrames r) =? totalFrames P)%nat
  then None
  else
    match canvasRef refs, containerRef refs, textBoxRef refs with
    | Some canvas, true, Some box =>
        if has_context2d canvas then
          Some {|
            bound_canvas := drawFrame P (imageFrames r) 0 canvas;
            bound_textBox := gsap_set_textBox 100 0 box;
            tl := {|
              scrollTrigger :=
                {| pin := true;
                   end_offset := totalScrollDistance P;
                   scrub := 1 # 10 |};
              children :=
                [ {| target := frameObject;
                     vars := [("index"%string, num (totalFrames P) - 1)];
                     ease := ease_none;
                     duration := Some 1;
                     position := 0 |};
                  {| target := textBox;
                     vars := [("y"%string, 0); ("opacity"%string, 1)];
                     ease := ease_power2_out;
                     duration := None;
                     position := startTime P |} ]
            |}
          |}
        else None
    | _, _, _ => None
    end.

(** The [onUpdate] callback of a binding at scroll progress [p]. *)
Definition binding_onUpdate (P : Props) (r : Loader) (p : Q) (b : Binding)
  : Binding :=
  {| bound_canvas := onUpdate P (imageFrames r) p (bound_canvas b);
     bound_textBox := bound_textBox b;
     tl := tl b |}.

(** ** The animation engine, as far as the binding relies on it

    gsap is a dependency of the component, not part of it.  The engine's
    documented behaviour is recorded here to read a [Timeline] value: a
    tween without [duration] lasts the default 0.5; a timeline lasts until
    its last child ends; a scrubbing ScrollTrigger puts the playhead at
    scroll progress times the timeline's duration; a [to] tween leaves its
    target alone before its position and moves it from the value found
    there to the target value along its ease. *)
Module Gsap.

Definition default_duration : Q := 1 # 2.

Definition tween_duration (d : Q) (tw : Tween) : Q :=
  match duration tw with Some x => x | None => d end.

Definition tween_end (d : Q) (tw : Tween) : Q :=
  position tw + tween_duration d tw.

Definition timeline_duration (d : Q) (t : Timeline) : Q :=
  foldr (fun tw acc => Math_max (tween_end d tw) acc) 0 (children t).

(** Timeline time shown at scroll progress [p]. *)
Definition playhead (d : Q) (t : Timeline) (p : Q) : Q :=
  p * timeline_duration d t.

Definition ease_apply (e : Ease) (x : Q) : Q :=
  match e with
  | ease_none => x
  | ease_power2_out => 1 - (1 - x) * (1 - x) * (1 - x)
  end.

(** Eased fraction of the tween covered at timeline time [time]. *)
Definition ratio (d : Q) (tw : Tween) (time : Q) : Q :=
  if Qle_bool time (position tw) then 0
  else if Qle_bool (tween_end d tw) time then 1
  else ease_apply (ease tw) ((time - position tw) / tween_duration d tw).

Fixpoint vars_get (k : string) (vs : list (string * Q)) : option Q :=
  match vs with
  | [] => None
  | (k', v) :: rest => if String.eqb k k' then Some v else vars_get k rest
  end.

Definition animate (d : Q) (tw : Tween) (time : Q) (k : string) (v0 : Q)
  : Q :=
  match vars_get k (vars tw) with
  | Some v1 => v0 + (v1 - v0) * ratio d tw time
  | None => v0
  end.

Definition apply_tween (d : Q) (time : Q) (box : TextBox) (tw : Tween)
  : TextBox :=
  match target tw with
  | textBox =>
      {| tb_y := animate d tw time "y" (tb_y box);
         tb_opacity := animate d tw time "opacity" (tb_opacity box) |}
  | frameObject => box
  end.

(** The text box at timeline time [time]. *)
Definition textBox_at_time (d : Q) (b : Binding) (time : Q) : TextBox :=
  foldl (apply_tween d time) (bound_textBox b) (children (tl b)).

(** The text box shown at scroll progress [p], for a default tween
    duration [d]. *)
Definition textBox_at (d : Q) (b : Binding) (p : Q) : TextBox :=
  textBox_at_time d b (playhead d (tl b) p).

End Gsap.

(** ** Sample loads

    Concrete inputs on which the statements below are evaluated. *)

Definition three_frames : Props :=
  {| firstFrameSrc := "/frames/first.webp";
     totalFrames := 3;
     totalFrames_safe := eq_refl;
     getFramePath := DEFAULT_FRAME_PATH_FORMAT;
     scrollSensitivity := 15;
     pinHeight := "100vh" |}.

(** Three successful fetches completing in the order 3, 1, 2. *)
Definition out_of_order : list Event :=
  [ (3%nat, Loaded 1920 1080); (1%nat, Loaded 1920 1080);
    (2%nat, Loaded 1280 720) ].

(** The fetch of source index 2 fails, the other two succeed. *)
Definition second_fails : list Event :=
  [ (2%nat, Failed); (1%nat, Loaded 1920 1080); (3%nat, Loaded 1920 1080) ].

(** The first-frame fetch fails while the others are still in flight. *)
Definition first_fails : list Event := [ (1%nat, Failed) ].

(** Every fetch of [P] succeeding in issue order with one size. *)
Definition all_loaded (P : Props) (w h : N) : list Event :=
  (fun i => (i, Loaded w h)) <$> issued P.

(** The double 0.9787234042553191, just below 46/47: times 47 it rounds up
    to 46. *)
Definition carried_progress : Q := 8815556717406077 # 9007199254740992.

Definition blank_canvas : HTMLCanvasElement :=
  {| width := 300; height := 150; calls := []; has_context2d := true |}.

(** Every ref attached, as after the render that follows settlement. *)
Definition mounted_refs : Refs :=
  {| canvasRef := Some blank_canvas;
     containerRef := true;
     textBoxRef := Some {| tb_y := 0; tb_opacity := 1 |} |}.

(** [App]'s component after all 48 fetches succeeded, and its binding. *)
Definition App_loaded : Loader :=
  loadImages App_props (all_loaded App_props 1920 1080).

Definition App_binding : option Binding :=
  bindEffect App_props App_loaded mounted_refs.

(** ** What the component renders *)

(** The child of the canvas wrapper: while loading, an [img] showing the
    first frame, displayed ([block]) or hidden ([none]); afterwards the
    canvas. *)
Inductive View :=
| PlaceholderImg (url : string) (display_block : bool)
| CanvasEl.

Definition render (P : Props) (r : Loader) : View :=
  if isLoading r
  then PlaceholderImg (firstFrameSrc P) (isFirstImageLoaded r)
  else CanvasEl.

(** The [onUpdate] callback fired for the progress values [ps], in order,
    on one canvas. *)
Definition scroll (P : Props) (frames : list HTMLImageElement)
    (ps : list Q) (canvas : HTMLCanvasElement) : HTMLCanvasElement :=
  foldl (fun c p => onUpdate P frames p c) canvas ps.

(** The calls of one paint of [img], after any resize. *)
Definition paint_calls (img : HTMLImageElement) : list CanvasCall :=
  [ ClearRect 0 0 (img_width img) (img_height img);
    DrawImage img 0 0 (img_width img) (img_height img) ].

(** The frame position [drawFrame] selects for [index], as an integer. *)
Definition clamped (P : Props) (index : Q) : Z :=
  Z.min (Z.of_nat (totalFrames P) - 1) (Z.max 0 (Qfloor index)).

(** * Properties *)

(** ** Rounding to a double *)

Lemma pow2_pos k : 0 < 2 ^ k.
Proof. by apply Qpower_0_lt. Qed.

Lemma pow2_add a b : 2 ^ (a + b) == 2 ^ a * 2 ^ b.
Proof. by apply Qpower_plus. Qed.

Lemma pow2_le a b : (a <= b)%Z -> 2 ^ a <= 2 ^ b.
Proof. intros. by apply Qpower_le_compat_l. Qed.

Lemma pow2_lt a b : (a < b)%Z -> 2 ^ a < 2 ^ b.
Proof. intros. by apply Qpower_lt_compat_l. Qed.

Lemma pow2_Z k : (0 <= k)%Z -> 2 ^ k == inject_Z (2 ^ k).
Proof. intros. by rewrite Zpower_Qpower. Qed.

Lemma pow2_le_inv a b : 2 ^ a <= 2 ^ b -> (a <= b)%Z.
Proof. intros. by apply (Qpower_le_compat_l_inv 2). Qed.

Lemma pow2_succ k : 2 ^ (k + 1) == 2 * 2 ^ k.
Proof. rewrite pow2_add. rewrite Qmult_comm. reflexivity. Qed.


Lemma exponent_spec x : 0 < x -> 2 ^ exponent x <= x /\ x < 2 ^ (exponent x + 1).
Proof.
  intros Hx. destruct x as [a b]. unfold exponent. cbn [Qnum Qden].
  assert (0 < a)%Z as Ha by (unfold Qlt in Hx; simpl in Hx; lia).
  set (la := Z.log2 a). set (lb := Z.log2 (Z.pos b)).
  destruct (Z.log2_spec a Ha) as [Ha1 Ha2]. fold la in Ha1, Ha2.
  destruct (Z.log2_spec (Z.pos b) ltac:(lia)) as [Hb1 Hb2]. fold lb in Hb1, Hb2.
  assert (0 <= la)%Z as Hla by apply Z.log2_nonneg.
  assert (0 <= lb)%Z as Hlb by apply Z.log2_nonneg.
  set (B := inject_Z (Z.pos b)).
  assert (0 < B) as HB by (unfold B; change 0 with (inject_Z 0); rewrite <- Zlt_Qlt; lia).
  assert ((a # b) * B == inject_Z a) as HxB.
  { unfold B, Qeq, Qmult, inject_Z. simpl. lia. }
  assert (2 ^ la <= inject_Z a) as Qa1 by (rewrite pow2_Z by done; rewrite <- Zle_Qle; lia).
  assert (inject_Z a < 2 ^ (la + 1)) as Qa2.
  { rewrite pow2_Z by lia. rewrite <- Zlt_Qlt. rewrite <- Z.add_1_r in Ha2. lia. }
  assert (2 ^ lb <= B) as Qb1 by (rewrite pow2_Z by done; unfold B; rewrite <- Zle_Qle; lia).
  assert (B < 2 ^ (lb + 1)) as Qb2.
  { rewrite pow2_Z by lia. unfold B. rewrite <- Zlt_Qlt. rewrite <- Z.add_1_r in Hb2. lia. }
  destruct (Qle_bool (2 ^ (la - lb)) (a # b)) eqn:E.
  - apply Qle_bool_iff in E. split; [done |].
    apply (Qmult_lt_r _ _ B HB). rewrite HxB.
    apply (Qlt_le_trans _ _ _ Qa2).
    replace (la + 1)%Z with ((la - lb + 1) + lb)%Z by lia.
    rewrite pow2_add. apply Qmult_le_l; [apply pow2_pos | done].
  - assert (a # b < 2 ^ (la - lb)) as Hlt.
    { apply Qnot_le_lt. intros H. apply Qle_bool_iff in H. congruence. }
    replace (la - lb - 1 + 1)%Z with (la - lb)%Z by lia. split; [| done].
    apply Qlt_le_weak. apply (Qmult_lt_r _ _ B HB). rewrite HxB.
    apply (Qlt_le_trans _ (2 ^ (la - lb - 1) * 2 ^ (lb + 1))).
    + apply Qmult_lt_l; [apply pow2_pos | done].
    + rewrite <- pow2_add. replace (la - lb - 1 + (lb + 1))%Z with la by lia. done.
Qed.

Lemma exponent_unique x e : 2 ^ e <= x -> x < 2 ^ (e + 1) -> exponent x = e.
Proof.
  intros H1 H2.
  assert (0 < x) as Hx by (apply (Qlt_le_trans _ (2 ^ e)); [apply pow2_pos | done]).
  destruct (exponent_spec x Hx) as [E1 E2].
  assert (2 ^ e < 2 ^ (exponent x + 1)) as A by (eapply Qle_lt_trans; eauto).
  assert (2 ^ exponent x < 2 ^ (e + 1)) as B by (eapply Qle_lt_trans; eauto).
  apply (Qpower_lt_compat_l_inv 2) in A; [| done].
  apply (Qpower_lt_compat_l_inv 2) in B; [| done]. lia.
Qed.

Lemma exponent_comp x y : 0 < x -> x == y -> exponent x = exponent y.
Proof.
  intros Hx Hxy. destruct (exponent_spec x Hx) as [E1 E2].
  symmetry. apply exponent_unique; by rewrite <- Hxy.
Qed.

Lemma exponent_mono x y : 0 < x -> x <= y -> (exponent x <= exponent y)%Z.
Proof.
  intros Hx Hxy.
  destruct (exponent_spec x Hx) as [E1 _].
  destruct (exponent_spec y (Qlt_le_trans _ _ _ Hx Hxy)) as [_ F2].
  assert (2 ^ exponent x < 2 ^ (exponent y + 1)) as A.
  { eapply Qle_lt_trans; [| exact F2]. by eapply Qle_trans. }
  apply (Qpower_lt_compat_l_inv 2) in A; [lia | done].
Qed.


Lemma rhe_bounds t :
  (Qfloor t <= round_half_even t <= Qfloor t + 1)%Z.
Proof.
  unfold round_half_even.
  destruct (Qcompare _ _); [destruct (Z.even _) |..]; lia.
Qed.

Lemma rhe_comp t u : t == u -> round_half_even t = round_half_even u.
Proof.
  intros H. unfold round_half_even.
  rewrite (Qfloor_comp _ _ H).
  assert (t - inject_Z (Qfloor u) == u - inject_Z (Qfloor u)) as A
    by (by rewrite H).
  by rewrite (Qcompare_comp _ _ A _ _ (Qeq_refl (1 # 2))).
Qed.

Lemma rhe_Z k : round_half_even (inject_Z k) = k.
Proof.
  unfold round_half_even. rewrite Qfloor_Z.
  assert (inject_Z k - inject_Z k == 0) as H by ring.
  by rewrite (Qcompare_comp _ _ H _ _ (Qeq_refl (1 # 2))).
Qed.

Lemma rhe_ge t k : inject_Z k <= t -> (k <= round_half_even t)%Z.
Proof.
  intros H. apply Qfloor_resp_le in H. rewrite Qfloor_Z in H.
  pose proof (rhe_bounds t). lia.
Qed.

Lemma rhe_le t k : t <= inject_Z k -> (round_half_even t <= k)%Z.
Proof.
  intros H. destruct (Qlt_le_dec t (inject_Z k)) as [Hlt | Hge].
  - pose proof (Qle_lt_trans _ _ _ (Qfloor_le t) Hlt) as H'.
    rewrite <- Zlt_Qlt in H'. pose proof (rhe_bounds t). lia.
  - rewrite (rhe_comp t (inject_Z k)) by by apply Qle_antisym.
    rewrite rhe_Z. lia.
Qed.

Lemma rhe_mono t u : t <= u -> (round_half_even t <= round_half_even u)%Z.
Proof.
  intros H. pose proof (Qfloor_resp_le _ _ H) as Hf.
  pose proof (rhe_bounds t) as Bt. pose proof (rhe_bounds u) as Bu.
  destruct (Z.eq_dec (Qfloor t) (Qfloor u)) as [E | NE]; [| lia].
  unfold round_half_even in *. rewrite <- E in *.
  set (f := Qfloor t) in *.
  assert (t - inject_Z f <= u - inject_Z f) as Hr.
  { apply Qplus_le_compat; [done | apply Qle_refl]. }
  destruct (Qcompare (t - inject_Z f) (1 # 2)) eqn:Ct;
    destruct (Qcompare (u - inject_Z f) (1 # 2)) eqn:Cu;
    try (destruct (Z.even f)); try lia; exfalso;
    repeat match goal with
    | H : Qcompare _ _ = Eq |- _ => apply Qeq_alt in H
    | H : Qcompare _ _ = Lt |- _ => apply Qlt_alt in H
    | H : Qcompare _ _ = Gt |- _ => apply Qgt_alt in H
    end; lra.
Qed.


Lemma ulp_pos x : 0 < ulp x.
Proof. apply pow2_pos. Qed.

Lemma ulp_comp x y : 0 < x -> x == y -> ulp x = ulp y.
Proof. intros Hx H. unfold ulp. by rewrite (exponent_comp x y). Qed.

Lemma round_pos_comp x y : 0 < x -> x == y -> round_pos x == round_pos y.
Proof.
  intros Hx H. unfold round_pos. rewrite (ulp_comp x y Hx H).
  rewrite (rhe_comp (x / ulp y) (y / ulp y)); [reflexivity |].
  by rewrite H.
Qed.

Lemma round_pos_grid_le x k :
  x <= inject_Z k * ulp x -> round_pos x <= inject_Z k * ulp x.
Proof.
  intros H. unfold round_pos.
  apply Qmult_le_compat_r; [| apply Qlt_le_weak, ulp_pos].
  rewrite <- Zle_Qle. apply rhe_le.
  apply Qle_shift_div_r; [apply ulp_pos | done].
Qed.

Lemma round_pos_grid_ge x k :
  inject_Z k * ulp x <= x -> inject_Z k * ulp x <= round_pos x.
Proof.
  intros H. unfold round_pos.
  apply Qmult_le_compat_r; [| apply Qlt_le_weak, ulp_pos].
  rewrite <- Zle_Qle. apply rhe_ge.
  apply Qle_shift_div_l; [apply ulp_pos | done].
Qed.

Lemma pow2_grid j q : (q <= j)%Z -> 2 ^ j == inject_Z (2 ^ (j - q)) * 2 ^ q.
Proof.
  intros H. rewrite <- pow2_Z by lia. rewrite <- pow2_add.
  by replace (j - q + q)%Z with j by lia.
Qed.

Lemma round_pos_mono x y : 0 < x -> x <= y -> round_pos x <= round_pos y.
Proof.
  intros Hx Hxy.
  assert (0 < y) as Hy by by eapply Qlt_le_trans.
  pose proof (exponent_mono x y Hx Hxy) as He.
  destruct (Z.eq_dec (Z.max (exponent x) (-1022)) (Z.max (exponent y) (-1022)))
    as [E | NE].
  - assert (ulp x = ulp y) as U by (unfold ulp; by rewrite E).
    unfold round_pos. rewrite U.
    apply Qmult_le_compat_r; [| apply Qlt_le_weak, ulp_pos].
    rewrite <- Zle_Qle. apply rhe_mono.
    apply Qmult_le_compat_r; [done |]. apply Qlt_le_weak, Qinv_lt_0_compat, ulp_pos.
  - destruct (exponent_spec x Hx) as [_ X2].
    destruct (exponent_spec y Hy) as [Y1 _].
    set (c := 2 ^ exponent y).
    assert (x <= c) as Hxc.
    { apply Qlt_le_weak. eapply Qlt_le_trans; [exact X2 |]. apply pow2_le. lia. }
    apply (Qle_trans _ c).
    + unfold c. rewrite (pow2_grid (exponent y) (Z.max (exponent x) (-1022) - 52)) by lia.
      apply round_pos_grid_le. fold (ulp x).
      rewrite <- pow2_grid by lia. done.
    + unfold c. rewrite (pow2_grid (exponent y) (Z.max (exponent y) (-1022) - 52)) by lia.
      apply round_pos_grid_ge. fold (ulp y).
      rewrite <- pow2_grid by lia. done.
Qed.

Lemma round_pos_nonneg x : 0 < x -> 0 <= round_pos x.
Proof.
  intros Hx. unfold round_pos.
  apply Qmult_le_0_compat; [| apply Qlt_le_weak, ulp_pos].
  change 0 with (inject_Z 0). rewrite <- Zle_Qle. apply rhe_ge.
  apply Qle_shift_div_l; [apply ulp_pos |]. rewrite Qmult_0_l. by apply Qlt_le_weak.
Qed.


Lemma Qnum_pos x : 0 < x -> exists p, Qnum x = Zpos p.
Proof.
  destruct x as [[| p | p] d]; unfold Qlt; simpl; intros H; try lia. by eexists.
Qed.

Lemma round_double_pos x : 0 < x -> round_double x = round_pos x.
Proof. intros [p Hp]%Qnum_pos. unfold round_double. by rewrite Hp. Qed.

Lemma round_double_zero x : x == 0 -> round_double x = 0.
Proof.
  intros H. unfold round_double.
  assert (Qnum x = 0%Z) as -> by (unfold Qeq in H; simpl in H; lia). done.
Qed.

Lemma round_double_mono x y :
  0 <= x -> x <= y -> round_double x <= round_double y.
Proof.
  intros Hx Hxy.
  destruct (Qlt_le_dec 0 x) as [Hpos | Hz].
  - rewrite !round_double_pos by (done || by eapply Qlt_le_trans).
    by apply round_pos_mono.
  - rewrite (round_double_zero x) by by apply Qle_antisym.
    destruct (Qlt_le_dec 0 y) as [Hy | Hy].
    + rewrite round_double_pos by done. by apply round_pos_nonneg.
    + rewrite (round_double_zero y); [apply Qle_refl |].
      apply Qle_antisym; [done | by eapply Qle_trans].
Qed.

Lemma round_double_comp x y : x == y -> round_double x == round_double y.
Proof.
  intros H. destruct (Q_dec 0 x) as [[Hpos | Hneg] | Hz].
  - rewrite !round_double_pos by (done || by rewrite <- H).
    by apply round_pos_comp.
  - assert (0 < - x) as Hx by (apply (Qplus_lt_l _ _ x); by ring_simplify).
    assert (0 < - y) as Hy by by rewrite <- H.
    assert (- x == - y) as H' by by rewrite H.
    unfold round_double.
    destruct x as [[| p | p] d]; unfold Qlt in Hneg; simpl in Hneg; try lia.
    destruct y as [[| p' | p'] d']; unfold Qlt in Hy; simpl in Hy; try lia.
    simpl Qnum. cbv iota. by rewrite (round_pos_comp _ _ Hx H').
  - rewrite !round_double_zero; [reflexivity | by rewrite <- H, <- Hz | by rewrite <- Hz].
Qed.

Lemma round_double_Z k :
  (0 <= k <= 2 ^ 53)%Z -> round_double (inject_Z k) == inject_Z k.
Proof.
  intros [H0 H53].
  destruct (Z.eq_dec k 0) as [-> | Hne]; [reflexivity |].
  assert (0 < inject_Z k) as Hpos.
  { change 0 with (inject_Z 0). rewrite <- Zlt_Qlt. lia. }
  rewrite round_double_pos by done.
  destruct (exponent_spec _ Hpos) as [E1 E2].
  set (e := exponent (inject_Z k)) in *.
  assert (0 <= e)%Z as He0.
  { destruct (Z_lt_le_dec e 0) as [Hneg |]; [| done]. exfalso.
    assert (2 ^ (e + 1) <= 2 ^ 0) as A by (apply pow2_le; lia).
    pose proof (Qlt_le_trans _ _ _ E2 A) as B.
    change (2 ^ 0) with (inject_Z 1) in B. rewrite <- Zlt_Qlt in B. lia. }
  assert (e <= 53)%Z as He53.
  { apply pow2_le_inv. apply (Qle_trans _ _ _ E1).
    rewrite (pow2_Z 53) by lia. rewrite <- Zle_Qle. lia. }
  assert (exists j, inject_Z k == inject_Z j * ulp (inject_Z k)) as [j Hj].
  { unfold ulp. fold e. rewrite Z.max_l by lia.
    destruct (Z.eq_dec e 53) as [E53 | NE].
    - exists (2 ^ 52)%Z. rewrite E53. 
      assert (k = 2 ^ 53)%Z as ->.
      { rewrite E53 in E1. rewrite (pow2_Z 53) in E1 by lia.
        rewrite <- Zle_Qle in E1. lia. }
      reflexivity.
    - exists (k * 2 ^ (52 - e))%Z. rewrite inject_Z_mult, <- Qmult_assoc.
      rewrite <- pow2_Z by lia. rewrite <- pow2_add.
      replace (52 - e + (e - 52))%Z with 0%Z by lia.
      change (2 ^ 0) with 1. by rewrite Qmult_1_r. }
  apply Qle_antisym.
  - rewrite Hj at 2. apply round_pos_grid_le. rewrite <- Hj. apply Qle_refl.
  - rewrite Hj at 1. apply round_pos_grid_ge. rewrite <- Hj. apply Qle_refl.
Qed.

Lemma rhe_below t k :
  t < inject_Z k + (1 # 2) -> (round_half_even t <= k)%Z.
Proof.
  intros H.
  assert (Qfloor t <= k)%Z as Hf.
  { pose proof (Qfloor_le t) as Hfl.
    assert (inject_Z (Qfloor t) < inject_Z (k + 1)) as A.
    { rewrite inject_Z_plus. change (inject_Z 1) with 1. lra. }
    rewrite <- Zlt_Qlt in A. lia. }
  destruct (Z.eq_dec (Qfloor t) k) as [E | NE].
  - unfold round_half_even. rewrite E.
    destruct (Qcompare (t - inject_Z k) (1 # 2)) eqn:C; [| lia |]; exfalso.
    + apply Qeq_alt in C. lra.
    + apply Qgt_alt in C. lra.
  - pose proof (rhe_bounds t). lia.
Qed.

Lemma double_below_1 p :
  is_double p = true -> p < 1 -> p <= 1 - gap_below_1.
Proof.
  intros Hd H1. apply Qnot_lt_le. intros Hgt.
  unfold is_double in Hd. apply Qeq_bool_iff in Hd.
  assert (0 < p) as Hpos by (unfold gap_below_1 in Hgt; lra).
  rewrite round_double_pos in Hd by done.
  assert (exponent p = (-1)%Z) as He.
  { apply exponent_unique.
    - change (2 ^ (-1)) with (1 # 2). unfold gap_below_1 in Hgt. lra.
    - change (2 ^ (-1 + 1)) with 1. done. }
  unfold round_pos, ulp in Hd. rewrite He in Hd.
  change (2 ^ (Z.max (-1) (-1022) - 52)) with gap_below_1 in Hd.
  set (z := round_half_even (p / gap_below_1)) in *.
  assert (inject_Z (2 ^ 53 - 1) < inject_Z z) as A.
  { change (inject_Z (2 ^ 53 - 1)) with (9007199254740991 # 1).
    unfold gap_below_1 in *. lra. }
  assert (inject_Z z < inject_Z (2 ^ 53)) as B.
  { change (inject_Z (2 ^ 53)) with (9007199254740992 # 1).
    unfold gap_below_1 in *. lra. }
  rewrite <- Zlt_Qlt in A, B. lia.
Qed.

Lemma round_below_integer (m : Z) (p : Q) :
  (1 <= m <= 2 ^ 53)%Z -> 0 <= p -> p <= 1 - gap_below_1 ->
  round_double (p * inject_Z m) < inject_Z m.
Proof.
  intros Hm H0 Hp.
  assert (0 < inject_Z m) as Hmpos.
  { change 0 with (inject_Z 0). rewrite <- Zlt_Qlt. lia. }
  set (x := (1 - gap_below_1) * inject_Z m).
  assert (0 < x) as Hx.
  { unfold x. apply Qmult_lt_0_compat; [by vm_compute | done]. }
  assert (x < inject_Z m) as Hxm.
  { unfold x, gap_below_1. assert (0 < (1 # 9007199254740992) * inject_Z m)
      by (apply Qmult_lt_0_compat; [by vm_compute | done]). lra. }
  apply (Qle_lt_trans _ (round_double x)).
  { apply round_double_mono.
    - apply Qmult_le_0_compat; [done | by apply Qlt_le_weak].
    - unfold x. apply Qmult_le_compat_r; [done | by apply Qlt_le_weak]. }
  rewrite round_double_pos by done.
  destruct (exponent_spec x Hx) as [E1 E2].
  set (e := exponent x) in *.
  assert (e < 53)%Z as He53.
  { assert (2 ^ e < 2 ^ 53) as A.
    { apply (Qle_lt_trans _ x); [done |]. apply (Qlt_le_trans _ _ _ Hxm).
      rewrite (pow2_Z 53) by lia. rewrite <- Zle_Qle. lia. }
    by apply (Qpower_lt_compat_l_inv 2) in A. }
  assert (-1 <= e)%Z as Hem1.
  { assert (2 ^ (-1) < 2 ^ (e + 1)) as A.
    { apply (Qle_lt_trans _ x); [| done].
      change (2 ^ (-1)) with (1 # 2). unfold x, gap_below_1.
      assert (1 <= inject_Z m) by (change 1 with (inject_Z 1); rewrite <- Zle_Qle; lia).
      assert ((1 # 2) * 1 <= (1 - (1 # 9007199254740992)) * inject_Z m) as B.
      { apply Qmult_le_compat_nonneg; split; (done || by vm_compute). }
      lra. }
    apply (Qpower_lt_compat_l_inv 2) in A; [lia | done]. }
  unfold round_pos, ulp. fold e. rewrite Z.max_l by lia.
  set (u := 2 ^ (e - 52)).
  assert (0 < u) as Hu by apply pow2_pos.
  set (M := (m * 2 ^ (52 - e))%Z).
  assert (inject_Z m == inject_Z M * u) as HM.
  { unfold M, u. rewrite inject_Z_mult, <- Qmult_assoc.
    rewrite <- pow2_Z by lia. rewrite <- pow2_add.
    replace (52 - e + (e - 52))%Z with 0%Z by lia.
    change (2 ^ 0) with 1. by rewrite Qmult_1_r. }
  assert (inject_Z (2 ^ 52) < inject_Z M) as HM52.
  { apply (Qmult_lt_r _ _ u Hu). rewrite <- HM.
    rewrite <- pow2_Z by lia. unfold u. rewrite <- pow2_add.
    replace (52 + (e - 52))%Z with e by lia.
    by apply (Qle_lt_trans _ x). }
  assert (x / u == (1 - gap_below_1) * inject_Z M) as Ht.
  { unfold x. rewrite HM. field. intros E. rewrite E in Hu. by apply Qlt_irrefl in Hu. }
  assert (round_half_even (x / u) <= M - 1)%Z as Hr.
  { apply rhe_below. rewrite Ht.
    assert (inject_Z (M - 1) == inject_Z M - 1) as ->
      by (unfold Qeq; simpl; lia).
    change (inject_Z (2 ^ 52)) with (4503599627370496 # 1) in HM52.
    unfold gap_below_1. lra. }
  rewrite HM. apply Qmult_lt_r; [done |]. rewrite <- Zlt_Qlt. lia.
Qed.

(** [round_double] against the Standard Library's binary64 operations:
    a product that rounds up to an integer, a quotient, a product that
    stays below its integer, a tie going to the even neighbour. *)

Example round_double_mul_carried :
  SF2Q (binary64_mul (S754_finite false 8815556717406077 (-53))
          (S754_finite false 47 0)) ==
  round_double (carried_progress * 47).
Proof. by vm_compute. Qed.

Example round_double_div_3_47 :
  SF2Q (binary64_div (S754_finite false 3 0) (S754_finite false 47 0)) ==
  round_double (3 # 47).
Proof. by vm_compute. Qed.

Example round_double_mul_below :
  SF2Q (binary64_mul
          (binary64_div (S754_finite false 3 0) (S754_finite false 47 0))
          (S754_finite false 47 0)) ==
  round_double (round_double (3 # 47) * 47) /\
  Qfloor (round_double (round_double (3 # 47) * 47)) = 2%Z.
Proof. by vm_compute. Qed.

Example round_double_tie_to_even :
  SF2Q (binary64_mul (S754_finite false 9007199254740993 0)
          (S754_finite false 1 0)) ==
  round_double (inject_Z (2 ^ 53 + 1)) /\
  round_double (inject_Z (2 ^ 53 + 1)) == inject_Z (2 ^ 53) /\
  round_double (inject_Z (2 ^ 53 + 3)) == inject_Z (2 ^ 53 + 4).
Proof. by vm_compute. Qed.

(** ** Arithmetic of the frame mapping *)

Lemma Math_max_inject (a b : Z) :
  Math_max (inject_Z a) (inject_Z b) = inject_Z (Z.max a b).
Proof.
  unfold Math_max.
  destruct (Qle_bool (inject_Z a) (inject_Z b)) eqn:E.
  - apply Qle_bool_iff in E. rewrite <- Zle_Qle in E.
    by rewrite Z.max_r.
  - assert (~ (a <= b)%Z) as H.
    { intros H. rewrite Zle_Qle in H. apply Qle_bool_iff in H. congruence. }
    rewrite Z.max_l; [done | lia].
Qed.

Lemma Math_min_inject (a b : Z) :
  Math_min (inject_Z a) (inject_Z b) = inject_Z (Z.min a b).
Proof.
  unfold Math_min.
  destruct (Qle_bool (inject_Z a) (inject_Z b)) eqn:E.
  - apply Qle_bool_iff in E. rewrite <- Zle_Qle in E.
    by rewrite Z.min_l.
  - assert (~ (a <= b)%Z) as H.
    { intros H. rewrite Zle_Qle in H. apply Qle_bool_iff in H. congruence. }
    rewrite Z.min_r; [done | lia].
Qed.

Lemma Math_min_compat a a' b b' :
  a == a' -> b == b' -> Math_min a b == Math_min a' b'.
Proof.
  intros Ha Hb. unfold Math_min.
  rewrite <- (Qleb_comp a a' Ha b b' Hb).
  by destruct (Qle_bool a b).
Qed.

Lemma num_pred (n : nat) : num n - 1 == inject_Z (Z.of_nat n - 1).
Proof.
  unfold num, Z.sub. rewrite inject_Z_plus, inject_Z_opp. reflexivity.
Qed.

(** The clamp of [drawFrame], as an integer. *)
Lemma frameIndex_Z (P : Props) (index : Q) :
  frameIndex P index ==
  inject_Z (Z.min (Z.of_nat (totalFrames P) - 1) (Z.max 0 (Qfloor index))).
Proof.
  unfold frameIndex, Math_floor.
  change 0 with (inject_Z 0).
  rewrite Math_max_inject, <- Math_min_inject.
  apply Math_min_compat; [apply num_pred | reflexivity].
Qed.

Lemma totalFrames_bound (P : Props) :
  (Z.of_nat (totalFrames P) <= 2 ^ 53 - 1)%Z.
Proof.
  pose proof (totalFrames_safe P) as H. apply Z.leb_le in H.
  unfold MAX_SAFE_INTEGER in H. lia.
Qed.

Lemma newIndex_Z (P : Props) (progress : Q) :
  newIndex P progress ==
  round_double (progress * inject_Z (Z.of_nat (totalFrames P) - 1)).
Proof.
  unfold newIndex. apply round_double_comp. by rewrite num_pred.
Qed.

Lemma mapProgressToFrame_Z (P : Props) (progress : Q) :
  mapProgressToFrame P progress ==
  inject_Z (Z.min (Z.of_nat (totalFrames P) - 1)
              (Z.max 0 (Qfloor (round_double
                 (progress * inject_Z (Z.of_nat (totalFrames P) - 1)))))).
Proof.
  unfold mapProgressToFrame.
  rewrite frameIndex_Z, (Qfloor_comp _ _ (newIndex_Z P progress)).
  reflexivity.
Qed.

Lemma newIndex_mono (P : Props) (p q : Q) :
  (1 <= totalFrames P)%nat -> 0 <= p -> p <= q ->
  newIndex P p <= newIndex P q.
Proof.
  intros Hn Hp Hpq.
  assert (0 <= inject_Z (Z.of_nat (totalFrames P) - 1)) as Hk.
  { change 0 with (inject_Z 0). rewrite <- Zle_Qle. lia. }
  rewrite !newIndex_Z. apply round_double_mono.
  - by apply Qmult_le_0_compat.
  - by apply Qmult_le_compat_r.
Qed.

(** The exact product lies in [[0, totalFrames - 1]] on [[0,1]]. *)
Lemma product_range (P : Props) (p : Q) :
  (1 <= totalFrames P)%nat -> 0 <= p <= 1 ->
  0 <= p * inject_Z (Z.of_nat (totalFrames P) - 1) <=
  inject_Z (Z.of_nat (totalFrames P) - 1).
Proof.
  intros Hn [H0 H1].
  assert (0 <= inject_Z (Z.of_nat (totalFrames P) - 1)) as Hk.
  { change 0 with (inject_Z 0). rewrite <- Zle_Qle. lia. }
  split.
  - by apply Qmult_le_0_compat.
  - rewrite <- (Qmult_1_l (inject_Z _)) at 2.
    by apply Qmult_le_compat_r.
Qed.

(** Rounding keeps a non-negative product on the same side of every safe
    integer. *)
Lemma round_double_ge_Z (x : Q) (k : Z) :
  (0 <= k <= 2 ^ 53)%Z -> inject_Z k <= x -> inject_Z k <= round_double x.
Proof.
  intros Hk Hx. rewrite <- (round_double_Z k Hk).
  apply round_double_mono; [| done].
  change 0 with (inject_Z 0). rewrite <- Zle_Qle. lia.
Qed.

Lemma round_double_le_Z (x : Q) (k : Z) :
  (0 <= k <= 2 ^ 53)%Z -> 0 <= x -> x <= inject_Z k ->
  round_double x <= inject_Z k.
Proof.
  intros Hk H0 Hx. rewrite <- (round_double_Z k Hk).
  by apply round_double_mono.
Qed.

(** Also rounded, the product lies in [[0, totalFrames - 1]] on [[0,1]]. *)
Lemma newIndex_range (P : Props) (p : Q) :
  (1 <= totalFrames P)%nat -> 0 <= p <= 1 ->
  0 <= newIndex P p <= inject_Z (Z.of_nat (totalFrames P) - 1).
Proof.
  intros Hn Hp. pose proof (totalFrames_bound P) as Hb.
  destruct (product_range P p Hn Hp) as [H0 H1].
  rewrite newIndex_Z. split.
  - change 0 with (inject_Z 0). apply round_double_ge_Z; [lia | done].
  - apply round_double_le_Z; [lia | done..].
Qed.

(** On [[0,1]] neither bound of the clamp is hit: the frame is the floor of
    the rounded product. *)
Lemma mapProgressToFrame_floor (P : Props) (progress : Q) :
  (1 <= totalFrames P)%nat ->
  0 <= progress <= 1 ->
  mapProgressToFrame P progress == Math_floor (newIndex P progress).
Proof.
  intros Hn Hp. unfold mapProgressToFrame. rewrite frameIndex_Z.
  unfold Math_floor.
  destruct (newIndex_range P progress Hn Hp) as [H0 H1].
  apply Qfloor_resp_le in H0, H1.
  change 0 with (inject_Z 0) in H0. rewrite Qfloor_Z in H0, H1.
  rewrite Z.max_r, Z.min_r by lia. reflexivity.
Qed.

(** The floor of the rounded product is the floor of the exact product or
    one more. *)
Lemma floor_round_double (x : Q) (m : Z) :
  (m <= 2 ^ 53 - 1)%Z -> 0 <= x -> x <= inject_Z m ->
  Qfloor (round_double x) = Qfloor x \/
  Qfloor (round_double x) = (Qfloor x + 1)%Z.
Proof.
  intros Hm H0 Hx.
  assert (0 <= Qfloor x <= m)%Z as Hk.
  { apply Qfloor_resp_le in H0, Hx. change 0 with (inject_Z 0) in H0.
    rewrite Qfloor_Z in H0, Hx. lia. }
  pose proof (round_double_ge_Z x (Qfloor x) ltac:(lia) (Qfloor_le x)) as Hlo.
  pose proof (round_double_le_Z x (Qfloor x + 1) ltac:(lia) H0
                (Qlt_le_weak _ _ (Qlt_floor x))) as Hhi.
  apply Qfloor_resp_le in Hlo, Hhi. rewrite Qfloor_Z in Hlo, Hhi. lia.
Qed.

(** C1, as the code has it: for [totalFrames >= 1] and a progress in
    [[0,1]] the mapping yields
    [min (totalFrames - 1) (max 0 (floor (fl (progress * (totalFrames - 1)))))],
    where [fl] rounds the product to the nearest double; that is the floor
    of the exact product or one more. *)
Theorem mapProgressToFrame_rounded (P : Props) (progress : Q) :
  (1 <= totalFrames P)%nat ->
  0 <= progress <= 1 ->
  mapProgressToFrame P progress ==
    inject_Z (Z.min (Z.of_nat (totalFrames P) - 1)
                (Z.max 0 (Qfloor (round_double
                   (progress * inject_Z (Z.of_nat (totalFrames P) - 1)))))) /\
  (mapProgressToFrame P progress ==
     inject_Z (Qfloor (progress * inject_Z (Z.of_nat (totalFrames P) - 1))) \/
   mapProgressToFrame P progress ==
     inject_Z (Qfloor (progress * inject_Z (Z.of_nat (totalFrames P) - 1))
               + 1)).
Proof.
  intros Hn Hp. split; [apply mapProgressToFrame_Z |].
  rewrite (mapProgressToFrame_floor P progress Hn Hp). unfold Math_floor.
  rewrite (Qfloor_comp _ _ (newIndex_Z P progress)).
  destruct (product_range P progress Hn Hp) as [H0 H1].
  pose proof (totalFrames_bound P) as Hb.
  destruct (floor_round_double _ (Z.of_nat (totalFrames P) - 1)
              ltac:(lia) H0 H1) as [-> | ->]; [by left | by right].
Qed.

Lemma mapProgressToFrame_rounded_witness :
  mapProgressToFrame App_props carried_progress ==
    inject_Z (Z.min (Z.of_nat (totalFrames App_props) - 1)
                (Z.max 0 (Qfloor (round_double
                   (carried_progress *
                    inject_Z (Z.of_nat (totalFrames App_props) - 1)))))) /\
  (mapProgressToFrame App_props carried_progress ==
     inject_Z (Qfloor (carried_progress *
                       inject_Z (Z.of_nat (totalFrames App_props) - 1))) \/
   mapProgressToFrame App_props carried_progress ==
     inject_Z (Qfloor (carried_progress *
                       inject_Z (Z.of_nat (totalFrames App_props) - 1))
               + 1)).
Proof.
  apply (mapProgressToFrame_rounded App_props carried_progress).
  - vm_compute. lia.
  - split; discriminate.
Defined.

(** C1 as stated fails: 0.9787234042553191 is a double in [[0,1]]; with 48
    frames its exact product with 47 lies below 46, so the stated formula
    gives 45, but the product rounds to 46 and frame 46 is painted. *)
Lemma exact_formula_misses_rounding :
  (1 <= totalFrames App_props)%nat /\
  0 <= carried_progress <= 1 /\
  is_double carried_progress = true /\
  mapProgressToFrame App_props carried_progress == 46 /\
  inject_Z (Z.min (Z.of_nat (totalFrames App_props) - 1)
              (Z.max 0 (Qfloor
                 (carried_progress *
                  (inject_Z (Z.of_nat (totalFrames App_props)) - 1))))) == 45 /\
  ~ mapProgressToFrame App_props carried_progress ==
    inject_Z (Z.min (Z.of_nat (totalFrames App_props) - 1)
                (Z.max 0 (Qfloor
                   (carried_progress *
                    (inject_Z (Z.of_nat (totalFrames App_props)) - 1))))).
Proof.
  split; [vm_compute; lia |].
  split; [split; discriminate |].
  split; [by vm_compute |].
  split; [by vm_compute |].
  split; [by vm_compute |].
  by vm_compute.
Qed.

(** C2: for [totalFrames >= 1] the mapping is monotonic non-decreasing on
    [[0,1]] and every result lies in [[0, totalFrames - 1]]. *)
Theorem mapProgressToFrame_mono_range (P : Props) :
  (1 <= totalFrames P)%nat ->
  (forall p q, 0 <= p -> p <= q -> q <= 1 ->
     mapProgressToFrame P p <= mapProgressToFrame P q) /\
  (forall p, 0 <= p <= 1 ->
     0 <= mapProgressToFrame P p <= num (totalFrames P) - 1).
Proof.
  intros Hn. split.
  - intros p q Hp Hpq _. unfold mapProgressToFrame.
    rewrite !frameIndex_Z, <- Zle_Qle.
    pose proof (Qfloor_resp_le _ _ (newIndex_mono P p q Hn Hp Hpq)). lia.
  - intros p _. unfold mapProgressToFrame. rewrite frameIndex_Z, num_pred.
    change 0 with (inject_Z 0). rewrite <- !Zle_Qle. lia.
Qed.

Lemma mapProgressToFrame_mono_range_witness :
  (1 <= totalFrames App_props)%nat /\
  mapProgressToFrame App_props (1 # 3) <= mapProgressToFrame App_props (2 # 3)
  /\ 0 <= mapProgressToFrame App_props (2 # 3) <= num 48 - 1.
Proof.
  assert (1 <= totalFrames App_props)%nat as Hn by (vm_compute; lia).
  destruct (mapProgressToFrame_mono_range App_props Hn) as [Hm Hr].
  split; [exact Hn |]. split.
  - apply Hm; discriminate.
  - apply Hr. split; discriminate.
Defined.

(** ** Painting *)

Lemma array_get_inject {A} (a : list A) (x : Q) (z : Z) :
  x == inject_Z z ->
  array_get a x = if decide (z < 0)%Z then None else a !! Z.to_nat z.
Proof.
  intros Hx. unfold array_get.
  rewrite (Qred_complete _ _ Hx), inject_Z_Qred. unfold inject_Z.
  destruct z; by case_decide.
Qed.

(** The position [drawFrame] reads, as a natural number whenever there is
    one. *)
Lemma array_get_frameIndex (P : Props) (frames : list HTMLImageElement)
    (index : Q) :
  array_get frames (frameIndex P index) =
  let z := Z.min (Z.of_nat (totalFrames P) - 1) (Z.max 0 (Qfloor index)) in
  if decide (z < 0)%Z then None else frames !! Z.to_nat z.
Proof. apply array_get_inject, frameIndex_Z. Qed.

Lemma needs_resize_false c img :
  needs_resize c img = false <-> dims c = img_dims img.
Proof.
  unfold needs_resize, dims, img_dims.
  rewrite orb_false_iff, !negb_false_iff, !N.eqb_eq.
  split; [intros [-> ->]; done | intros [= -> ->]; done].
Qed.

Lemma needs_resize_true c img :
  needs_resize c img = true <-> dims c <> img_dims img.
Proof.
  rewrite <- needs_resize_false. by destruct (needs_resize c img).
Qed.

Lemma drawFrame_Some P frames index canvas img :
  array_get frames (frameIndex P index) = Some img ->
  drawFrame P frames index canvas =
  context_call (DrawImage img 0 0 (img_width img) (img_height img))
    (context_call (ClearRect 0 0 (img_width img) (img_height img))
       (if needs_resize canvas img
        then set_height (img_height img) (set_width (img_width img) canvas)
        else canvas)).
Proof. intros H. unfold drawFrame. by rewrite H. Qed.

Lemma resizes_app_calls (c : HTMLCanvasElement) (k : CanvasCall) :
  resizes (context_call k c) =
  resizes c ++ (if is_resize k then [k] else []).
Proof.
  unfold resizes, context_call; simpl. rewrite filter_app.
  f_equal. by destruct k.
Qed.

(** After a paint the buffer has the frame's dimensions, and the buffer was
    reallocated by the paint exactly when the dimensions differed. *)
Lemma drawFrame_resize P frames index canvas img :
  array_get frames (frameIndex P index) = Some img ->
  let canvas' := drawFrame P frames index canvas in
  dims canvas' = img_dims img /\
  (dims canvas = img_dims img -> resizes canvas' = resizes canvas) /\
  (dims canvas <> img_dims img ->
   resizes canvas' =
   resizes canvas ++ [SetWidth (img_width img); SetHeight (img_height img)]).
Proof.
  intros H. cbv zeta. rewrite (drawFrame_Some _ _ _ _ _ H).
  rewrite !resizes_app_calls, !app_nil_r; simpl.
  destruct (needs_resize canvas img) eqn:E.
  - apply needs_resize_true in E. split; [done |]. split; [done |].
    intros _. unfold resizes; simpl.
    by rewrite !filter_app, <- app_assoc.
  - apply needs_resize_false in E. split; [done |]. split; [done |].
    intros Hne. by destruct Hne.
Qed.

(** C8: [drawFrame] resizes the backing buffer to the selected frame's
    natural dimensions if and only if they differ from the canvas's current
    dimensions; two paints of frames with identical dimensions leave the
    buffer dimensions unchanged and do not reallocate, and a paint of a
    frame with other dimensions resizes the buffer exactly to them. *)
Theorem drawFrame_resizes_iff_differ P frames canvas i1 i2 img1 img2 :
  array_get frames (frameIndex P i1) = Some img1 ->
  array_get frames (frameIndex P i2) = Some img2 ->
  let c1 := drawFrame P frames i1 canvas in
  let c2 := drawFrame P frames i2 c1 in
  (resizes c1 <> resizes canvas <-> dims canvas <> img_dims img1) /\
  dims c1 = img_dims img1 /\
  (img_dims img2 = img_dims img1 ->
   dims c2 = dims c1 /\ resizes c2 = resizes c1) /\
  (img_dims img2 <> img_dims img1 ->
   dims c2 = img_dims img2 /\
   resizes c2 =
   resizes c1 ++ [SetWidth (img_width img2); SetHeight (img_height img2)]).
Proof.
  intros H1 H2 c1 c2.
  destruct (drawFrame_resize P frames i1 canvas img1 H1) as (Hd1 & Hs1 & Hr1).
  destruct (drawFrame_resize P frames i2 c1 img2 H2) as (Hd2 & Hs2 & Hr2).
  fold c1 in Hd1, Hs1, Hr1. fold c2 in Hd2, Hs2, Hr2.
  split; [| split; [done |]; split].
  - split.
    + intros Hne Heq. by apply Hne, Hs1.
    + intros Hne. rewrite (Hr1 Hne). intros Heq.
      apply (f_equal length) in Heq. rewrite length_app in Heq.
      simpl in Heq. lia.
  - intros Heq. rewrite Hd1, Hd2. split; [done |].
    apply Hs2. by rewrite Hd1.
  - intros Hne. split; [done |]. apply Hr2. by rewrite Hd1.
Qed.

(** C10: when the frame collection has no element at the clamped index,
    [drawFrame] returns the canvas as it received it: no resize, no clear,
    no draw. *)
Theorem drawFrame_missing_frame P frames (index : Q) canvas :
  array_get frames (frameIndex P index) = None ->
  drawFrame P frames index canvas = canvas.
Proof. intros H. unfold drawFrame. by rewrite H. Qed.

(** A frame set shorter than the clamped index has no element there. *)
Lemma array_get_short P (frames : list HTMLImageElement) (index : Q) :
  (Z.of_nat (length frames) <=
   Z.min (Z.of_nat (totalFrames P) - 1) (Z.max 0 (Qfloor index)))%Z ->
  array_get frames (frameIndex P index) = None.
Proof.
  intros H. rewrite array_get_frameIndex. cbv zeta.
  case_decide; [done |]. apply lookup_ge_None. lia.
Qed.

(** ** Arrays with holes *)

Lemma slot_array_set {A} (a : list (option A)) (k j : nat) (v : A) :
  slot (array_set a k v) j = if decide (j = k) then Some v else slot a j.
Proof.
  unfold slot, array_set. case_decide as Hk.
  - case_decide as Hj.
    + subst. by rewrite list_lookup_insert_eq.
    + by rewrite list_lookup_insert_ne.
  - destruct (decide (j < length a)%nat) as [Hlt | Hge].
    + rewrite lookup_app_l by done. case_decide; [lia | done].
    + rewrite lookup_app_r by lia.
      rewrite (lookup_ge_None_2 a j) by lia.
      destruct (decide (j - length a < k - length a)%nat) as [Hlt | Hge'].
      * rewrite lookup_app_l by (by rewrite length_replicate).
        rewrite lookup_replicate_2 by done. case_decide; [lia | done].
      * rewrite lookup_app_r by (rewrite length_replicate; lia).
        rewrite length_replicate.
        case_decide as Hj.
        -- subst. by rewrite Nat.sub_diag.
        -- destruct (j - length a - (k - length a))%nat as [| m] eqn:E;
             [lia | done].
Qed.

Lemma slot_ge {A} (a : list (option A)) (k : nat) :
  (length a <= k)%nat -> slot a k = None.
Proof. intros H. unfold slot. by rewrite lookup_ge_None_2. Qed.

Lemma omap_ext_in {A B} (f g : A -> option B) (l : list A) :
  (forall x, x ∈ l -> f x = g x) -> omap f l = omap g l.
Proof.
  induction l as [| x l IH]; intros H; [done |]. csimpl.
  rewrite (H x) by left. rewrite IH; [done |].
  intros y Hy. apply H. by right.
Qed.

Lemma omap_all_None {A B} (f : A -> option B) (l : list A) :
  (forall x, x ∈ l -> f x = None) -> omap f l = [].
Proof.
  induction l as [| x l IH]; intros H; [done |]. csimpl.
  rewrite (H x) by left. apply IH. intros y Hy. apply H. by right.
Qed.

Lemma filter_Boolean_offset {A} (a : list (option A)) (j : nat) :
  filter_Boolean a = omap (fun k => slot a (k - j)) (seq j (length a)).
Proof.
  revert j. induction a as [| x a IH]; intros j; [done |].
  unfold filter_Boolean in *. csimpl. rewrite Nat.sub_diag.
  unfold slot at 1. csimpl.
  rewrite (omap_ext_in (fun k => slot (x :: a) (k - j))
             (fun k => slot a (k - S j)) (seq (S j) (length a))).
  - rewrite <- (IH (S j)). by destruct x.
  - intros k Hk. apply elem_of_seq in Hk.
    replace (k - j)%nat with (S (k - S j)) by lia. done.
Qed.

(** [filter(Boolean)] reads the slots in increasing order of position. *)
Lemma filter_Boolean_slots {A} (a : list (option A)) (m : nat) :
  (length a <= m)%nat -> filter_Boolean a = omap (slot a) (seq 0 m).
Proof.
  intros Hm. replace m with (length a + (m - length a))%nat by lia.
  rewrite seq_app, omap_app, (omap_all_None _ (seq _ (m - length a))).
  - rewrite app_nil_r, (filter_Boolean_offset a 0).
    apply omap_ext_in. intros k _. by rewrite Nat.sub_0_r.
  - intros k Hk. apply elem_of_seq in Hk. apply slot_ge. lia.
Qed.

(** ** The handlers of one image *)

Lemma filter_all {A} (Q : A -> Prop) `{forall x, Decision (Q x)} (l : list A) :
  (forall x, x ∈ l -> Q x) -> filter Q l = l.
Proof.
  induction l as [| x l IH]; intros Hl; [done |].
  rewrite filter_cons_True by (apply Hl; left).
  f_equal. apply IH. intros y Hy. apply Hl. by right.
Qed.

Lemma filter_none {A} (Q : A -> Prop) `{forall x, Decision (Q x)} (l : list A) :
  (forall x, x ∈ l -> ~ Q x) -> filter Q l = [].
Proof.
  induction l as [| x l IH]; intros Hl; [done |].
  rewrite filter_cons_False by (apply Hl; left).
  apply IH. intros y Hy. apply Hl. by right.
Qed.

Lemma handler_loadedImages P i res r :
  loadedImages (handler P i res r) =
  match res with
  | Loaded w h => array_set (loadedImages r) (i - 1) (mkImage P i w h)
  | Failed => loadedImages r
  end.
Proof. unfold handler. case_decide; subst; by destruct res. Qed.

Lemma handler_imagePromises P i res r :
  imagePromises (handler P i res r) =
  filter (fun j => j <> i) (imagePromises r).
Proof. unfold handler. case_decide; by destruct res. Qed.

Lemma handler_console P i res r :
  console (handler P i res r) =
  console r ++ (if is_loaded res then [] else [error_entry P i]).
Proof.
  unfold handler, error_entry.
  case_decide; destruct res; simpl; by rewrite ?app_nil_r.
Qed.

Lemma handler_isLoading P i res r :
  isLoading (handler P i res r) = isLoading r.
Proof. unfold handler. case_decide; by destruct res. Qed.

Lemma handler_imageFrames P i res r :
  imageFrames (handler P i res r) = imageFrames r.
Proof. unfold handler. case_decide; by destruct res. Qed.

Lemma handler_isFirstImageLoaded P i res r :
  isFirstImageLoaded (handler P i res r) =
  if decide (i = 1%nat)
  then (if is_loaded res then true else isFirstImageLoaded r)
  else isFirstImageLoaded r.
Proof. unfold handler. case_decide; by destruct res. Qed.

Lemma handlers_snoc P evs ev :
  handlers P (evs ++ [ev]) = handler P ev.1 ev.2 (handlers P evs).
Proof. unfold handlers. by rewrite foldl_app. Qed.

(** Promises still pending: the issued fetches no event has resolved. *)
Lemma handlers_imagePromises P evs :
  imagePromises (handlers P evs) =
  filter (fun i => i ∉ evs.*1) (issued P).
Proof.
  induction evs as [| ev evs IH] using rev_ind.
  - simpl. symmetry. apply filter_all. intros i _. apply not_elem_of_nil.
  - rewrite handlers_snoc, handler_imagePromises, IH, list_filter_filter.
    apply list_filter_iff. intros i. rewrite fmap_app, elem_of_app. simpl.
    rewrite list_elem_of_singleton. tauto.
Qed.

Lemma handlers_isLoading P evs : isLoading (handlers P evs) = true.
Proof.
  induction evs as [| ev evs IH] using rev_ind; [done |].
  by rewrite handlers_snoc, handler_isLoading.
Qed.

Lemma handlers_imageFrames P evs : imageFrames (handlers P evs) = [].
Proof.
  induction evs as [| ev evs IH] using rev_ind; [done |].
  by rewrite handlers_snoc, handler_imageFrames.
Qed.

(** One [console.error] per failed fetch, in order of failure, and nothing
    else. *)
Lemma handlers_console P evs :
  console (handlers P evs) =
  error_entry P <$> (filter (fun ev => is_loaded ev.2 = false) evs).*1.
Proof.
  induction evs as [| ev evs IH] using rev_ind; [done |].
  rewrite handlers_snoc, handler_console, IH, filter_app, !fmap_app.
  f_equal. rewrite filter_singleton; [| exact evs].
  case_decide as E; rewrite ?E; [done |]. by destruct (is_loaded ev.2).
Qed.

Lemma outcome_snoc evs ev i :
  outcome (evs ++ [ev]) i =
  match outcome evs i with
  | Some res => Some res
  | None => if decide (ev.1 = i) then Some ev.2 else None
  end.
Proof.
  induction evs as [| e evs IH]; simpl; [by case_decide |].
  by destruct (decide (e.1 = i)).
Qed.

Lemma outcome_None evs i : i ∉ evs.*1 -> outcome evs i = None.
Proof.
  induction evs as [| e evs IH]; simpl; [done |].
  rewrite not_elem_of_cons. intros [Hne Hi]. case_decide; [congruence | auto].
Qed.

Lemma outcome_Some evs i res :
  outcome evs i = Some res -> (i, res) ∈ evs.
Proof.
  induction evs as [| [j r] evs IH]; simpl; [done |].
  case_decide; [intros [= <-]; subst; left | right; auto].
Qed.

Lemma outcome_elem_of evs i res :
  NoDup evs.*1 -> (i, res) ∈ evs -> outcome evs i = Some res.
Proof.
  induction evs as [| [j r] evs IH]; simpl; [by intros _ ?%elem_of_nil |].
  rewrite NoDup_cons, elem_of_cons. intros [Hj Hnd] [[= -> ->] | Hin].
  - by case_decide.
  - case_decide as E; [| auto]. subst. destruct Hj.
    apply list_elem_of_fmap. by exists (i, res).
Qed.

Lemma issued_pos P i : i ∈ issued P -> (1 <= i)%nat.
Proof.
  unfold issued. rewrite elem_of_cons, elem_of_seq. lia.
Qed.

Lemma issued_seq P : issued P = seq 1 (S (totalFrames P - 1)).
Proof. done. Qed.

Lemma issued_NoDup P : NoDup (issued P).
Proof. rewrite issued_seq. apply NoDup_seq. Qed.

Lemma observable_snoc P evs ev :
  observable P (evs ++ [ev]) ->
  observable P evs /\ (ev.1 ∉ evs.*1) /\ (ev.1 ∈ issued P).
Proof.
  unfold observable. rewrite fmap_app, NoDup_app. simpl.
  intros [(Hnd & Hnot & _) Hin]. repeat split.
  - done.
  - intros i Hi. apply Hin, elem_of_app. by left.
  - intros Hi. apply (Hnot _ Hi). left.
  - apply Hin, elem_of_app. right. left.
Qed.

(** Position [k] of [loadedImages] holds the image of source index [k+1]
    once its fetch has succeeded, whatever happened to the others, and is
    empty otherwise. *)
Lemma handlers_slot P evs k :
  observable P evs ->
  slot (loadedImages (handlers P evs)) k = loaded_image P evs (S k).
Proof.
  induction evs as [| [i res] evs IH] using rev_ind; intros Hobs.
  - done.
  - apply observable_snoc in Hobs as (Hobs & Hnew & Hiss). simpl in *.
    apply issued_pos in Hiss.
    rewrite handlers_snoc, handler_loadedImages. simpl.
    unfold loaded_image. rewrite outcome_snoc. simpl.
    specialize (IH Hobs). unfold loaded_image in IH.
    destruct (decide (i = S k)) as [-> | Hne].
    + rewrite (outcome_None evs (S k) Hnew).
      destruct res; [| by rewrite IH, (outcome_None evs (S k) Hnew)].
      rewrite slot_array_set. case_decide; [done | lia].
    + assert (slot (loadedImages (handlers P evs)) k =
              match outcome evs (S k) with
              | Some (Loaded w h) => Some (mkImage P (S k) w h)
              | _ => None
              end) as IH' by done.
      destruct res.
      * rewrite slot_array_set. case_decide; [lia |]. rewrite IH'.
        by destruct (outcome evs (S k)).
      * rewrite IH'. by destruct (outcome evs (S k)).
Qed.

(** ** A whole load *)

Lemma settle_isLoading P r : isLoading (settle P r) = false.
Proof. unfold settle. by case_decide. Qed.

Lemma settle_imageFrames P r :
  imageFrames (settle P r) = filter_Boolean (loadedImages r).
Proof. unfold settle. by case_decide. Qed.

Lemma settle_loadedImages P r : loadedImages (settle P r) = loadedImages r.
Proof. unfold settle. by case_decide. Qed.

Lemma settle_isFirstImageLoaded P r :
  isFirstImageLoaded (settle P r) = isFirstImageLoaded r.
Proof. unfold settle. by case_decide. Qed.

Lemma settle_console P r :
  console (settle P r) =
  console r ++
  (if decide (length (filter_Boolean (loadedImages r)) = totalFrames P)
   then []
   else [WarnIncomplete (length (filter_Boolean (loadedImages r)))
           (totalFrames P)]).
Proof. unfold settle. case_decide; simpl; by rewrite ?app_nil_r. Qed.

(** The continuation of [Promise.all] runs when, and only when, the
    handlers have resolved every promise. *)
Lemma loadImages_handlers P evs :
  observable P evs ->
  loadImages P evs =
  if decide (imagePromises (handlers P evs) = [])
  then settle P (handlers P evs)
  else handlers P evs.
Proof.
  induction evs as [| ev evs IH] using rev_ind; intros Hobs.
  - by case_decide.
  - apply observable_snoc in Hobs as (Hobs & Hnew & Hiss).
    assert (ev.1 ∈ imagePromises (handlers P evs)) as Hpend.
    { rewrite handlers_imagePromises. by apply list_elem_of_filter. }
    unfold loadImages in *. rewrite foldl_snoc, (IH Hobs).
    case_decide as E; [rewrite E in Hpend; by apply elem_of_nil in Hpend |].
    unfold deliver. rewrite decide_True by done.
    rewrite handlers_snoc.
    destruct (imagePromises (handler P ev.1 ev.2 (handlers P evs)));
      by case_decide.
Qed.

Lemma all_resolved P evs :
  imagePromises (handlers P evs) = [] <->
  (forall i, i ∈ issued P -> i ∈ evs.*1).
Proof.
  rewrite handlers_imagePromises. split.
  - intros Hnil i Hi. destruct (decide (i ∈ evs.*1)) as [| Hn]; [done |].
    by destruct (filter_nil_not_elem_of _ _ i Hnil Hn).
  - intros Hall. apply filter_none. intros i Hi Hn. by apply Hn, Hall.
Qed.

Lemma settles_observable P evs : settles P evs -> observable P evs.
Proof.
  unfold settles, observable. intros Hp. split.
  - rewrite Hp. apply issued_NoDup.
  - intros i. by rewrite Hp.
Qed.

Lemma settles_all_resolved P evs :
  settles P evs -> imagePromises (handlers P evs) = [].
Proof. intros Hp. apply all_resolved. intros i. by rewrite Hp. Qed.

Lemma loadImages_settled P evs :
  settles P evs -> loadImages P evs = settle P (handlers P evs).
Proof.
  intros Hp. rewrite loadImages_handlers by by apply settles_observable.
  by rewrite decide_True by by apply settles_all_resolved.
Qed.

Lemma omap_fmap_comp {A B C} (f : B -> option C) (g : A -> B) (l : list A) :
  omap f (g <$> l) = omap (fun x => f (g x)) l.
Proof.
  induction l as [| x l IH]; [done |]. csimpl. by rewrite IH.
Qed.

(** The compacted array lists the images of the successful fetches in the
    order of their source indices. *)
Lemma handlers_filter_Boolean P evs :
  observable P evs ->
  filter_Boolean (loadedImages (handlers P evs)) =
  omap (loaded_image P evs) (issued P).
Proof.
  intros Hobs. set (a := loadedImages (handlers P evs)).
  rewrite (filter_Boolean_slots a (S (totalFrames P - 1) + length a)) by lia.
  rewrite seq_app, omap_app, (omap_all_None _ (seq _ (length a))).
  - rewrite app_nil_r, issued_seq, <- fmap_S_seq, omap_fmap_comp.
    apply omap_ext_in. intros k _. by apply handlers_slot.
  - intros k Hk. apply elem_of_seq in Hk. unfold a.
    rewrite handlers_slot by done. unfold loaded_image.
    rewrite outcome_None; [done |]. intros Hin.
    apply Hobs in Hin. rewrite issued_seq in Hin.
    apply elem_of_seq in Hin. lia.
Qed.

Lemma loaded_image_length P evs (l : list Event) :
  (forall ev, ev ∈ l -> outcome evs ev.1 = Some ev.2) ->
  length (omap (loaded_image P evs) l.*1) =
  length (filter (fun ev => is_loaded ev.2 = true) l).
Proof.
  induction l as [| ev l IH]; intros Hl; [done |]. csimpl.
  unfold loaded_image at 1. rewrite (Hl ev) by left.
  rewrite filter_cons.
  assert (forall e, e ∈ l -> outcome evs e.1 = Some e.2) as Hl'.
  { intros e He. apply Hl. by right. }
  destruct ev.2; simpl; by rewrite (IH Hl').
Qed.

(** The compacted array has one element per successful fetch. *)
Lemma handlers_successCount P evs :
  settles P evs ->
  length (filter_Boolean (loadedImages (handlers P evs))) = successCount evs.
Proof.
  intros Hp. pose proof (settles_observable P evs Hp) as Hobs.
  rewrite handlers_filter_Boolean by done.
  rewrite <- (omap_Permutation (loaded_image P evs) _ _ Hp).
  apply loaded_image_length. intros [i res] Hin.
  apply outcome_elem_of; [apply Hobs | done].
Qed.

Lemma errors_error_entry P (l : list nat) :
  errors (error_entry P <$> l) = error_entry P <$> l.
Proof.
  apply filter_all. intros e [i [-> _]]%list_elem_of_fmap.
  unfold error_entry. by case_decide.
Qed.

Lemma warnings_error_entry P (l : list nat) :
  warnings (error_entry P <$> l) = [].
Proof.
  apply filter_none. intros e [i [-> _]]%list_elem_of_fmap.
  unfold error_entry. by case_decide.
Qed.

(** State of a settled load: flag cleared, one frame per success. *)
Lemma loadImages_settled_state P evs :
  settles P evs ->
  isLoading (loadImages P evs) = false /\
  length (imageFrames (loadImages P evs)) = successCount evs.
Proof.
  intros Hp. rewrite loadImages_settled by done.
  by rewrite settle_isLoading, settle_imageFrames, handlers_successCount.
Qed.

Lemma omap_all_Some_lookup {A B} (f : A -> option B) (l : list A) k x :
  (forall y, y ∈ l -> is_Some (f y)) ->
  l !! k = Some x -> omap f l !! k = f x.
Proof.
  revert k. induction l as [| y l IH]; intros k Hall Hk; [done |].
  csimpl. destruct (Hall y) as [b Hb]; [left |]. rewrite Hb.
  destruct k as [| k]; simpl in *.
  - by injection Hk as ->.
  - apply IH; [| done]. intros z Hz. apply Hall. by right.
Qed.

(** C4: when every fetch succeeds, position [k] of the emitted frame set
    holds the image loaded for source index [k+1] (position 0 the image
    fetched from [firstFrameSrc]), in whatever order the fetches
    completed. *)
Theorem loadImages_positions P evs k :
  settles P evs ->
  (forall ev, ev ∈ evs -> is_loaded ev.2 = true) ->
  (k < totalFrames P)%nat ->
  exists w h,
    (S k, Loaded w h) ∈ evs /\
    imageFrames (loadImages P evs) !! k = Some (mkImage P (S k) w h) /\
    src (mkImage P (S k) w h) =
    (if decide (k = 0%nat) then firstFrameSrc P else getFramePath P (S k)).
Proof.
  intros Hp Hall Hk.
  pose proof (settles_observable P evs Hp) as Hobs.
  assert (forall i, i ∈ issued P -> exists w h, (i, Loaded w h) ∈ evs) as Hev.
  { intros i Hi. rewrite <- Hp in Hi.
    apply list_elem_of_fmap in Hi as [[j res] [-> Hin]]. simpl.
    specialize (Hall _ Hin). destruct res as [w h |]; [eauto | done]. }
  assert (issued P !! k = Some (S k)) as Hlook.
  { rewrite issued_seq. apply lookup_seq. lia. }
  destruct (Hev (S k)) as (w & h & Hin).
  { by apply list_elem_of_lookup_2 in Hlook. }
  exists w, h. split; [done |]. split.
  - rewrite loadImages_settled, settle_imageFrames by done.
    rewrite handlers_filter_Boolean by done.
    rewrite (omap_all_Some_lookup _ _ k (S k)); [| | done].
    + unfold loaded_image.
      by rewrite (outcome_elem_of evs (S k) (Loaded w h)) by (apply Hobs || done).
    + intros i Hi. destruct (Hev i Hi) as (w' & h' & Hin').
      unfold loaded_image.
      rewrite (outcome_elem_of evs i (Loaded w' h')) by (apply Hobs || done).
      by eexists.
  - unfold mkImage, framePath. simpl.
    destruct k; repeat case_decide; (done || lia).
Qed.

(** X18: the frame set of a settled load does not depend on the order in
    which the same fetch results arrived, failures included. *)
Lemma loadImages_order_irrelevant P evs1 evs2 :
  settles P evs1 -> evs1 ≡ₚ evs2 ->
  imageFrames (loadImages P evs1) = imageFrames (loadImages P evs2).
Proof.
  intros Hp1 Hperm.
  assert (settles P evs2) as Hp2 by (unfold settles; by rewrite <- Hperm).
  pose proof (settles_observable _ _ Hp1) as Ho1.
  pose proof (settles_observable _ _ Hp2) as Ho2.
  rewrite !loadImages_settled, !settle_imageFrames by done.
  rewrite !handlers_filter_Boolean by done.
  apply omap_ext_in. intros i _. unfold loaded_image.
  assert (outcome evs1 i = outcome evs2 i) as ->; [| done].
  destruct (outcome evs1 i) as [res |] eqn:E1.
  - apply outcome_Some in E1. rewrite Hperm in E1.
    symmetry. apply outcome_elem_of; [apply Ho2 | done].
  - destruct (outcome evs2 i) as [res |] eqn:E2; [| done].
    apply outcome_Some in E2. rewrite <- Hperm in E2.
    rewrite (outcome_elem_of evs1 i res) in E1; [done | apply Ho1 | done].
Qed.

(** C5: every failed fetch is logged once and leaves its position empty,
    the images of the other fetches are stored all the same, and the
    loader settles exactly when every issued fetch has resolved: no frame
    set and no warning exist before, and once settled the frame set holds
    every successful image in source order. *)
Theorem loadImages_failures_contained P evs :
  observable P evs ->
  let r := loadImages P evs in
  errors (console r) =
    error_entry P <$> (filter (fun ev => is_loaded ev.2 = false) evs).*1 /\
  (forall k, slot (loadedImages r) k = loaded_image P evs (S k)) /\
  (isLoading r = false <-> (forall i, i ∈ issued P -> i ∈ evs.*1)) /\
  (isLoading r = true -> imageFrames r = [] /\ warnings (console r) = []) /\
  (isLoading r = false ->
   imageFrames r = omap (loaded_image P evs) (issued P)).
Proof.
  intros Hobs r. unfold r. rewrite loadImages_handlers by done.
  case_decide as E.
  - rewrite settle_isLoading, settle_imageFrames, settle_loadedImages,
      settle_console, handlers_console.
    repeat split.
    + unfold errors. rewrite filter_app. fold (errors (error_entry P <$>
        (filter (fun ev => is_loaded ev.2 = false) evs).*1)).
      rewrite errors_error_entry. case_decide; by rewrite app_nil_r.
    + intros k. by apply handlers_slot.
    + intros _. by apply all_resolved.
    + done.
    + done.
    + intros _. by apply handlers_filter_Boolean.
  - rewrite handlers_isLoading, handlers_imageFrames, handlers_console.
    repeat split.
    + apply errors_error_entry.
    + intros k. by apply handlers_slot.
    + done.
    + intros Hall. by apply all_resolved in Hall.
    + apply warnings_error_entry.
    + done.
Qed.

(** C6: after settlement the loading flag is cleared in every case; with
    fewer successes than [totalFrames] the state is [PartiallyReady] and
    the console holds exactly one warning, carrying the success count and
    [totalFrames]; with [totalFrames] successes the state is [Ready] and
    there is no warning. *)
Theorem loadImages_settlement P evs :
  settles P evs ->
  let r := loadImages P evs in
  isLoading r = false /\
  length (imageFrames r) = successCount evs /\
  ((successCount evs < totalFrames P)%nat ->
   loadState P r = PartiallyReady (successCount evs) /\
   warnings (console r) =
     [WarnIncomplete (successCount evs) (totalFrames P)]) /\
  (successCount evs = totalFrames P ->
   loadState P r = Ready (successCount evs) /\ warnings (console r) = []).
Proof.
  intros Hp r. unfold r, loadState.
  rewrite loadImages_settled by done.
  rewrite settle_isLoading, settle_imageFrames, settle_console,
    handlers_console, handlers_successCount by done.
  unfold warnings. rewrite filter_app.
  fold (warnings (error_entry P <$>
    (filter (fun ev => is_loaded ev.2 = false) evs).*1)).
  rewrite warnings_error_entry. simpl.
  split; [done |]. split; [done |]. split; intros Hc.
  - rewrite !decide_False by lia. done.
  - rewrite !decide_True by lia. done.
Qed.

Lemma handlers_isFirstImageLoaded P evs :
  NoDup evs.*1 ->
  isFirstImageLoaded (handlers P evs) = true <->
  exists w h, (1%nat, Loaded w h) ∈ evs.
Proof.
  induction evs as [| [i res] evs IH] using rev_ind; intros Hnd.
  - simpl. split; [done |]. intros (w & h & Hin). by apply elem_of_nil in Hin.
  - rewrite fmap_app in Hnd. apply NoDup_app in Hnd as (Hnd & Hnot & _).
    rewrite handlers_snoc, handler_isFirstImageLoaded. simpl.
    specialize (IH Hnd).
    assert ((exists w h, (1%nat, Loaded w h) ∈ evs ++ [(i, res)]) <->
            (exists w h, (1%nat, Loaded w h) ∈ evs) \/
            (i = 1%nat /\ is_loaded res = true)) as ->.
    { split.
      - intros (w & h & [Hin | Hin%list_elem_of_singleton]%elem_of_app).
        + left; eauto.
        + right. by injection Hin as <- <-.
      - intros [(w & h & Hin) | [-> Hres]].
        + exists w, h. apply elem_of_app. by left.
        + destruct res as [w h |]; [| done]. exists w, h.
          apply elem_of_app. right. left. }
    case_decide as Hi.
    + subst. destruct res; simpl.
      * split; [intros _; by right | done].
      * rewrite IH. split; [by left | intros [? | [_ ?]]; done].
    + rewrite IH. split; [by left | intros [? | [? _]]; done].
Qed.

(** C7, as the code has it: the flag is set exactly when the first-frame
    fetch has resolved with success, however many of the other fetches have
    resolved by then; a failure of the first-frame fetch leaves it
    cleared. *)
Theorem isFirstImageLoaded_iff_first_loaded P evs :
  observable P evs ->
  isFirstImageLoaded (loadImages P evs) = true <->
  exists w h, (1%nat, Loaded w h) ∈ evs.
Proof.
  intros Hobs. rewrite loadImages_handlers by done.
  case_decide; rewrite ?settle_isFirstImageLoaded;
    apply handlers_isFirstImageLoaded, Hobs.
Qed.

(** ** Binding *)

Lemma bindEffect_Some P r refs b :
  bindEffect P r refs = Some b ->
  isLoading r = false /\
  length (imageFrames r) = totalFrames P /\
  (exists canvas, canvasRef refs = Some canvas /\
     has_context2d canvas = true /\
     bound_canvas b = drawFrame P (imageFrames r) 0 canvas) /\
  bound_textBox b = {| tb_y := 100; tb_opacity := 0 |} /\
  children (tl b) =
    [ {| target := frameObject;
         vars := [("index"%string, num (totalFrames P) - 1)];
         ease := ease_none; duration := Some 1; position := 0 |};
      {| target := textBox;
         vars := [("y"%string, 0); ("opacity"%string, 1)];
         ease := ease_power2_out; duration := None;
         position := startTime P |} ].
Proof.
  unfold bindEffect.
  destruct (isLoading r); [done |].
  destruct (length (imageFrames r) =? totalFrames P)%nat eqn:E; [| done].
  apply Nat.eqb_eq in E. simpl.
  destruct (canvasRef refs) as [canvas |]; [| done].
  destruct (containerRef refs); [| done].
  destruct (textBoxRef refs) as [box |]; [| done].
  destruct (has_context2d canvas) eqn:Hc; [| done].
  intros [= <-]. simpl. repeat split; eauto.
Qed.

(** The guard of the effect: without a complete frame set nothing is
    bound. *)
Lemma bindEffect_incomplete P r refs :
  length (imageFrames r) <> totalFrames P -> bindEffect P r refs = None.
Proof.
  intros Hne. unfold bindEffect.
  apply Nat.eqb_neq in Hne. rewrite Hne. by destruct (isLoading r).
Qed.

Lemma mapProgressToFrame_end P :
  (1 <= totalFrames P)%nat ->
  mapProgressToFrame P 1 == inject_Z (Z.of_nat (totalFrames P) - 1).
Proof.
  intros Hn. pose proof (totalFrames_bound P) as Hb.
  rewrite mapProgressToFrame_Z.
  rewrite (Qfloor_comp _ (inject_Z (Z.of_nat (totalFrames P) - 1))), Qfloor_Z.
  2:{ rewrite <- (round_double_Z (Z.of_nat (totalFrames P) - 1)) at 2 by lia.
      apply round_double_comp, Qmult_1_l. }
  rewrite Z.max_r, Z.min_id by lia. reflexivity.
Qed.

(** C3, as the code has it: after a load that settles with fewer successes
    than [totalFrames] the binding effect returns at its guard and binds
    nothing; the frame mapping does clamp against the configured
    [totalFrames], so at progress 1 it yields [totalFrames - 1], a position
    the shorter frame set does not have. *)
Theorem partial_load_not_bound P evs refs :
  settles P evs ->
  (successCount evs < totalFrames P)%nat ->
  let r := loadImages P evs in
  bindEffect P r refs = None /\
  (length (imageFrames r) < totalFrames P)%nat /\
  mapProgressToFrame P 1 == num (totalFrames P) - 1 /\
  array_get (imageFrames r) (mapProgressToFrame P 1) = None.
Proof.
  intros Hp Hlt r.
  destruct (loadImages_settled_state P evs Hp) as [_ Hlen].
  fold r in Hlen.
  split; [apply bindEffect_incomplete; lia |].
  split; [lia |].
  split; [rewrite num_pred; apply mapProgressToFrame_end; lia |].
  rewrite (array_get_inject _ _ _ (mapProgressToFrame_end P ltac:(lia))).
  case_decide; [done |]. apply lookup_ge_None. lia.
Qed.

(** ** The sample loads *)

Lemma out_of_order_settles : settles three_frames out_of_order.
Proof.
  unfold settles. simpl.
  etrans; [apply perm_swap | apply perm_skip, perm_swap].
Qed.

Lemma second_fails_settles : settles three_frames second_fails.
Proof. unfold settles. simpl. apply perm_swap. Qed.

Lemma first_fails_observable : observable three_frames first_fails.
Proof.
  split; simpl.
  - apply NoDup_singleton.
  - intros i ->%list_elem_of_singleton. left.
Qed.

Lemma loadImages_positions_witness :
  exists w h,
    (2%nat, Loaded w h) ∈ out_of_order /\
    imageFrames (loadImages three_frames out_of_order) !! 1%nat =
      Some (mkImage three_frames 2 w h) /\
    src (mkImage three_frames 2 w h) = getFramePath three_frames 2.
Proof.
  apply (loadImages_positions three_frames out_of_order 1).
  - exact out_of_order_settles.
  - apply Forall_forall. by repeat constructor.
  - simpl. lia.
Defined.

Lemma loadImages_failures_contained_witness :
  errors (console (loadImages three_frames second_fails)) =
    [ErrorImage (getFramePath three_frames 2)] /\
  (forall k, slot (loadedImages (loadImages three_frames second_fails)) k =
             loaded_image three_frames second_fails (S k)) /\
  (isLoading (loadImages three_frames second_fails) = false <->
   (forall i, i ∈ issued three_frames -> i ∈ second_fails.*1)) /\
  (isLoading (loadImages three_frames second_fails) = true ->
   imageFrames (loadImages three_frames second_fails) = [] /\
   warnings (console (loadImages three_frames second_fails)) = []) /\
  (isLoading (loadImages three_frames second_fails) = false ->
   imageFrames (loadImages three_frames second_fails) =
   omap (loaded_image three_frames second_fails) (issued three_frames)).
Proof.
  apply (loadImages_failures_contained three_frames second_fails).
  apply settles_observable, second_fails_settles.
Defined.

Lemma loadImages_settlement_witness :
  isLoading (loadImages three_frames second_fails) = false /\
  length (imageFrames (loadImages three_frames second_fails)) = 2%nat /\
  ((2 < 3)%nat ->
   loadState three_frames (loadImages three_frames second_fails) =
     PartiallyReady 2 /\
   warnings (console (loadImages three_frames second_fails)) =
     [WarnIncomplete 2 3]) /\
  (2%nat = 3%nat ->
   loadState three_frames (loadImages three_frames second_fails) = Ready 2 /\
   warnings (console (loadImages three_frames second_fails)) = []).
Proof.
  apply (loadImages_settlement three_frames second_fails).
  exact second_fails_settles.
Defined.

Lemma isFirstImageLoaded_iff_first_loaded_witness :
  isFirstImageLoaded (loadImages three_frames first_fails) = true <->
  exists w h, (1%nat, Loaded w h) ∈ first_fails.
Proof.
  apply (isFirstImageLoaded_iff_first_loaded three_frames first_fails).
  exact first_fails_observable.
Defined.

(** C7 as stated fails: the first-frame fetch has resolved, with a
    failure, and the flag is still cleared. *)
Lemma first_frame_failure_leaves_flag_cleared :
  observable three_frames first_fails /\
  outcome first_fails 1 = Some Failed /\
  isFirstImageLoaded (loadImages three_frames first_fails) = false.
Proof. split; [exact first_fails_observable | by vm_compute]. Qed.

Lemma partial_load_not_bound_witness :
  bindEffect three_frames (loadImages three_frames second_fails)
    mounted_refs = None /\
  (length (imageFrames (loadImages three_frames second_fails)) < 3)%nat /\
  mapProgressToFrame three_frames 1 == num 3 - 1 /\
  array_get (imageFrames (loadImages three_frames second_fails))
    (mapProgressToFrame three_frames 1) = None.
Proof.
  apply (partial_load_not_bound three_frames second_fails mounted_refs).
  - exact second_fails_settles.
  - vm_compute. lia.
Defined.

(** C3 as stated fails: the load settled with 2 of 3 frames, every ref is
    attached and a 2d context exists, yet the effect binds nothing. *)
Lemma partial_load_is_not_bound :
  settles three_frames second_fails /\
  (successCount second_fails < totalFrames three_frames)%nat /\
  isLoading (loadImages three_frames second_fails) = false /\
  bindEffect three_frames (loadImages three_frames second_fails)
    mounted_refs = None.
Proof.
  split; [exact second_fails_settles |].
  split; [vm_compute; lia |]. by vm_compute.
Qed.

Lemma drawFrame_resizes_iff_differ_witness :
  let frames := imageFrames (loadImages three_frames out_of_order) in
  let c1 := drawFrame three_frames frames 0 blank_canvas in
  let c2 := drawFrame three_frames frames 2 c1 in
  let c3 := drawFrame three_frames frames 1 c2 in
  dims c1 = (1920%N, 1080%N) /\
  (dims c2 = dims c1 /\ resizes c2 = resizes c1) /\
  (dims c3 = (1280%N, 720%N) /\
   resizes c3 = resizes c2 ++ [SetWidth 1280; SetHeight 720]).
Proof.
  intros frames c1 c2 c3.
  destruct (drawFrame_resizes_iff_differ three_frames frames blank_canvas 0 2
              (mkImage three_frames 1 1920 1080)
              (mkImage three_frames 3 1920 1080))
    as (_ & Hd1 & Hsame & _); [by vm_compute | by vm_compute |].
  destruct (drawFrame_resizes_iff_differ three_frames frames c1 2 1
              (mkImage three_frames 3 1920 1080)
              (mkImage three_frames 2 1280 720))
    as (_ & _ & _ & Hdiff); [by vm_compute | by vm_compute |].
  split; [exact Hd1 |]. split; [by apply Hsame |].
  apply Hdiff. by vm_compute.
Defined.

Lemma drawFrame_missing_frame_witness :
  drawFrame three_frames
    (imageFrames (loadImages three_frames second_fails)) 2 blank_canvas =
  blank_canvas.
Proof.
  apply (drawFrame_missing_frame three_frames).
  by vm_compute.
Defined.

(** ** The reveal of the text box *)

(** In timeline time the text box rests at offset 100 / opacity 0 until the
    position of its tween, whatever the default duration. *)
Lemma textBox_rest_until_startTime P r refs b d time :
  bindEffect P r refs = Some b ->
  time <= startTime P ->
  Gsap.textBox_at_time d b time = {| tb_y := 100; tb_opacity := 0 |}.
Proof.
  intros (_ & _ & _ & Hbox & Hch)%bindEffect_Some Ht.
  unfold Gsap.textBox_at_time. rewrite Hbox, Hch. simpl.
  unfold Gsap.apply_tween, Gsap.animate, Gsap.ratio. simpl.
  apply Qle_bool_iff in Ht. by rewrite Ht.
Qed.

(** In scroll progress the text box rests as long as the playhead, progress
    times the timeline's duration, has not passed that position. *)
Lemma textBox_rest_until_playhead P r refs b d p :
  bindEffect P r refs = Some b ->
  p * Gsap.timeline_duration d (tl b) <= startTime P ->
  Gsap.textBox_at d b p = {| tb_y := 100; tb_opacity := 0 |}.
Proof.
  intros Hb Hp. unfold Gsap.textBox_at, Gsap.playhead.
  by apply (textBox_rest_until_startTime P r refs).
Qed.

Lemma timeline_duration_bound P r refs b d :
  bindEffect P r refs = Some b ->
  startTime P + d <= 1 ->
  Gsap.timeline_duration d (tl b) == 1.
Proof.
  intros (_ & _ & _ & _ & Hch)%bindEffect_Some Hd.
  unfold Gsap.timeline_duration. rewrite Hch. simpl.
  unfold Gsap.tween_end, Gsap.tween_duration. simpl.
  assert (Math_max (startTime P + d) 0 <= 1) as Hin.
  { unfold Math_max. by destruct (Qle_bool (startTime P + d) 0). }
  unfold Math_max at 1.
  destruct (Qle_bool (0 + 1) (Math_max (startTime P + d) 0)) eqn:E;
    [| reflexivity].
  apply Qle_bool_iff in E. apply Qle_antisym; [done |].
  by rewrite Qplus_0_l in E.
Qed.

(** Had the text tween ended by timeline time 1, progress and timeline time
    would coincide and the text box would rest for every progress up to
    [startTime]. *)
Lemma textBox_rest_when_timeline_lasts_1 P r refs b d p :
  bindEffect P r refs = Some b ->
  startTime P + d <= 1 ->
  p <= startTime P ->
  Gsap.textBox_at d b p = {| tb_y := 100; tb_opacity := 0 |}.
Proof.
  intros Hb Hd Hp. apply (textBox_rest_until_playhead P r refs); [done |].
  by rewrite (timeline_duration_bound P r refs b d Hb Hd), Qmult_1_r.
Qed.

(** C9 at [totalFrames = 48]: the binding puts the text box at offset 100 /
    opacity 0 and the reveal tween at position 30/47, but the tween lasts
    the default 0.5 and stretches the timeline to 107/94; at progress 3/5,
    below 30/47 and on frame 28, the text box has already left its resting
    state.  It rests exactly up to progress 60/107. *)
Theorem reveal_begins_before_START_FRAME :
  exists b,
    App_binding = Some b /\
    bound_textBox b = {| tb_y := 100; tb_opacity := 0 |} /\
    startTime App_props == 30 # 47 /\
    Gsap.timeline_duration Gsap.default_duration (tl b) == 107 # 94 /\
    3 # 5 < startTime App_props /\
    mapProgressToFrame App_props (3 # 5) == 28 /\
    tb_y (Gsap.textBox_at Gsap.default_duration b (3 # 5)) < 100 /\
    0 < tb_opacity (Gsap.textBox_at Gsap.default_duration b (3 # 5)) /\
    Gsap.textBox_at Gsap.default_duration b (60 # 107) =
      {| tb_y := 100; tb_opacity := 0 |}.
Proof.
  eexists. split; [vm_compute; reflexivity |].
  repeat split; by vm_compute.
Qed.

(** * Further properties of the renderer *)

Lemma Qfloor_unique (x : Q) (k : Z) :
  inject_Z k <= x -> x < inject_Z (k + 1) -> Qfloor x = k.
Proof.
  intros Hle Hlt.
  apply Qfloor_resp_le in Hle. rewrite Qfloor_Z in Hle.
  pose proof (Qle_lt_trans _ _ _ (Qfloor_le x) Hlt) as H.
  rewrite <- Zlt_Qlt in H. lia.
Qed.

Lemma frameIndex_clamped P index :
  frameIndex P index == inject_Z (clamped P index).
Proof. apply frameIndex_Z. Qed.

Lemma clamped_range P index :
  (1 <= totalFrames P)%nat ->
  (0 <= clamped P index < Z.of_nat (totalFrames P))%Z.
Proof. unfold clamped. lia. Qed.

Lemma array_get_clamped P (frames : list HTMLImageElement) index :
  (1 <= totalFrames P)%nat ->
  array_get frames (frameIndex P index) =
  frames !! Z.to_nat (clamped P index).
Proof.
  intros Hn. rewrite (array_get_inject _ _ _ (frameIndex_clamped P index)).
  pose proof (clamped_range P index Hn). by rewrite decide_False by lia.
Qed.

Lemma drawFrame_same_clamped P frames i j canvas :
  clamped P i = clamped P j ->
  drawFrame P frames i canvas = drawFrame P frames j canvas.
Proof.
  intros H. unfold drawFrame.
  rewrite (array_get_inject _ _ _ (frameIndex_clamped P i)).
  rewrite (array_get_inject _ _ _ (frameIndex_clamped P j)).
  by rewrite H.
Qed.

Lemma drawFrame_calls P frames index canvas img :
  array_get frames (frameIndex P index) = Some img ->
  calls (drawFrame P frames index canvas) =
    calls canvas ++
    (if needs_resize canvas img
     then [SetWidth (img_width img); SetHeight (img_height img)] else []) ++
    paint_calls img /\
  dims (drawFrame P frames index canvas) = img_dims img /\
  has_context2d (drawFrame P frames index canvas) = has_context2d canvas.
Proof.
  intros H. rewrite (drawFrame_Some _ _ _ _ _ H). unfold paint_calls.
  destruct (needs_resize canvas img) eqn:E; simpl.
  - repeat split. by rewrite <- !app_assoc.
  - apply needs_resize_false in E. repeat split; [| done].
    by rewrite <- app_assoc.
Qed.

(** A complete frame set has a frame at every clamped index. *)
Lemma complete_set_selects P (frames : list HTMLImageElement) index :
  (1 <= totalFrames P)%nat ->
  length frames = totalFrames P ->
  exists img,
    frames !! Z.to_nat (clamped P index) = Some img /\
    array_get frames (frameIndex P index) = Some img.
Proof.
  intros Hn Hlen. pose proof (clamped_range P index Hn) as Hr.
  destruct (lookup_lt_is_Some_2 frames (Z.to_nat (clamped P index)))
    as [img Himg]; [lia |].
  exists img. split; [done |]. by rewrite array_get_clamped.
Qed.

(** X1: with a complete frame set ([totalFrames >= 1] frames) every index,
    negative, fractional or beyond the end, selects a frame and paints it:
    the canvas gets an optional resize, then one clear and one draw of that
    frame at origin and native size, and ends with the frame's dimensions. *)
Theorem drawFrame_complete_set_paints P frames index canvas :
  (1 <= totalFrames P)%nat ->
  length frames = totalFrames P ->
  exists img,
    frames !! Z.to_nat (clamped P index) = Some img /\
    calls (drawFrame P frames index canvas) =
      calls canvas ++
      (if needs_resize canvas img
       then [SetWidth (img_width img); SetHeight (img_height img)]
       else []) ++
      paint_calls img /\
    dims (drawFrame P frames index canvas) = img_dims img.
Proof.
  intros Hn Hlen.
  destruct (complete_set_selects P frames index Hn Hlen)
    as (img & Himg & Hget).
  exists img. split; [done |].
  destruct (drawFrame_calls P frames index canvas img Hget) as (? & ? & _).
  done.
Qed.

(** X2: out-of-range indices are clamped to the ends: an index at or below
    0 paints what index 0 paints, and an index at or above
    [totalFrames - 1] paints what [totalFrames - 1] paints. *)
Theorem drawFrame_clamps_index P frames index canvas :
  (index <= 0 ->
   drawFrame P frames index canvas = drawFrame P frames 0 canvas) /\
  ((1 <= totalFrames P)%nat -> num (totalFrames P) - 1 <= index ->
   drawFrame P frames index canvas =
   drawFrame P frames (num (totalFrames P) - 1) canvas).
Proof.
  split.
  - intros Hle. apply drawFrame_same_clamped. unfold clamped.
    apply Qfloor_resp_le in Hle. change 0 with (inject_Z 0) in Hle.
    rewrite Qfloor_Z in Hle. change (Qfloor 0) with 0%Z. lia.
  - intros Hn Hge. apply drawFrame_same_clamped. unfold clamped.
    rewrite num_pred in Hge. apply Qfloor_resp_le in Hge.
    rewrite Qfloor_Z in Hge.
    rewrite (Qfloor_comp _ _ (num_pred (totalFrames P))), Qfloor_Z. lia.
Qed.

(** [drawFrame] ignores the fractional part of its index. *)
Theorem drawFrame_floor P frames index canvas :
  drawFrame P frames index canvas =
  drawFrame P frames (Math_floor index) canvas.
Proof.
  apply drawFrame_same_clamped. unfold clamped, Math_floor.
  by rewrite Qfloor_Z.
Qed.

Lemma scroll_snoc P frames ps p canvas :
  scroll P frames (ps ++ [p]) canvas =
  onUpdate P frames p (scroll P frames ps canvas).
Proof. unfold scroll. by rewrite foldl_snoc. Qed.

(** X3: when all frames of a complete set share the canvas's dimensions,
    no sequence of scroll updates ever reallocates the buffer: dimensions
    and past resizes stay as they were, and every update appends exactly
    one clear followed by one draw of the frame it selects, nothing else. *)
Theorem scroll_never_reallocates P frames ps canvas :
  (1 <= totalFrames P)%nat ->
  length frames = totalFrames P ->
  (forall img, img ∈ frames -> img_dims img = dims canvas) ->
  dims (scroll P frames ps canvas) = dims canvas /\
  resizes (scroll P frames ps canvas) = resizes canvas /\
  length (calls (scroll P frames ps canvas)) =
    (length (calls canvas) + 2 * length ps)%nat /\
  exists imgs,
    Forall2 (fun p img =>
               array_get frames (frameIndex P (newIndex P p)) = Some img)
      ps imgs /\
    calls (scroll P frames ps canvas) =
      calls canvas ++ concat (paint_calls <$> imgs).
Proof.
  intros Hn Hlen Hsame.
  induction ps as [| p ps IH] using rev_ind.
  { simpl. split_and!; [done | done | lia |].
    exists []. split; [constructor | by rewrite app_nil_r]. }
  destruct IH as (IHd & IHr & IHl & imgs & IHsel & IHcalls).
  rewrite scroll_snoc. unfold onUpdate.
  set (c := scroll P frames ps canvas) in *.
  destruct (complete_set_selects P frames (newIndex P p) Hn Hlen)
    as (img & Himg & Hget).
  destruct (drawFrame_calls P frames (newIndex P p) c img Hget)
    as (Hcalls & Hdims & _).
  apply list_elem_of_lookup_2, Hsame in Himg.
  assert (needs_resize c img = false) as Hno.
  { apply needs_resize_false. by rewrite IHd. }
  rewrite Hno in Hcalls. simpl in Hcalls.
  split_and!.
  - by rewrite Hdims.
  - unfold resizes. rewrite Hcalls, filter_app. simpl.
    fold (resizes c). by rewrite IHr, app_nil_r.
  - rewrite Hcalls, length_app, IHl, length_app. simpl. lia.
  - exists (imgs ++ [img]). split.
    + apply Forall2_app; [done | by constructor].
    + by rewrite Hcalls, IHcalls, fmap_app, concat_app, <- app_assoc.
Qed.

Lemma newIndex_comp P p q : p == q -> newIndex P p == newIndex P q.
Proof.
  intros H. unfold newIndex. apply round_double_comp. by rewrite H.
Qed.

Lemma newIndex_0 P : newIndex P 0 == 0.
Proof.
  unfold newIndex. rewrite round_double_zero; [reflexivity |].
  apply Qmult_0_l.
Qed.

Lemma newIndex_1 P :
  (1 <= totalFrames P)%nat ->
  newIndex P 1 == inject_Z (Z.of_nat (totalFrames P) - 1).
Proof.
  intros Hn. pose proof (totalFrames_bound P) as Hb.
  rewrite newIndex_Z.
  rewrite <- (round_double_Z (Z.of_nat (totalFrames P) - 1)) at 2 by lia.
  apply round_double_comp, Qmult_1_l.
Qed.

(** X5: with at least two frames the last frame is painted at progress 1
    and at no other double of [[0,1]]. *)
Theorem last_frame_only_at_end P (progress : Q) :
  (2 <= totalFrames P)%nat ->
  is_double progress = true ->
  0 <= progress <= 1 ->
  mapProgressToFrame P progress == num (totalFrames P) - 1 <->
  progress == 1.
Proof.
  intros Hn Hd [H0 H1]. pose proof (totalFrames_bound P) as Hb.
  rewrite num_pred.
  rewrite (mapProgressToFrame_floor P progress) by (done || lia).
  unfold Math_floor. split.
  - intros Heq. apply (proj1 (inject_Z_injective _ _)) in Heq.
    apply Qle_antisym; [done |]. apply Qnot_lt_le. intros Hlt.
    pose proof (double_below_1 progress Hd Hlt) as Hp.
    pose proof (round_below_integer (Z.of_nat (totalFrames P) - 1) progress
                  ltac:(lia) H0 Hp) as Hr.
    rewrite <- newIndex_Z in Hr.
    pose proof (Qle_lt_trans _ _ _ (Qfloor_le (newIndex P progress)) Hr) as A.
    rewrite <- Zlt_Qlt in A. lia.
  - intros Heq.
    rewrite (Qfloor_comp _ _ (newIndex_comp P _ _ Heq)).
    rewrite (Qfloor_comp _ _ (newIndex_1 P ltac:(lia))), Qfloor_Z.
    reflexivity.
Qed.

(** X7: with a complete frame set the update at progress 0 reads the first
    frame and the update at progress 1 reads the last one. *)
Theorem onUpdate_endpoints P (frames : list HTMLImageElement) :
  (1 <= totalFrames P)%nat ->
  length frames = totalFrames P ->
  array_get frames (mapProgressToFrame P 0) = head frames /\
  array_get frames (mapProgressToFrame P 1) = last frames.
Proof.
  intros Hn Hlen. unfold mapProgressToFrame.
  rewrite !array_get_clamped by done. unfold clamped. split.
  - rewrite (Qfloor_comp _ (inject_Z 0)) by apply newIndex_0.
    rewrite Qfloor_Z, Z.max_id, Z.min_r by lia. simpl.
    by rewrite head_lookup.
  - rewrite (Qfloor_comp _ _ (newIndex_1 P Hn)).
    rewrite Qfloor_Z, Z.max_r, Z.min_id by lia.
    rewrite last_lookup, Hlen. f_equal. lia.
Qed.

(** X8: with [totalFrames = 0] the clamp yields [-1] for every index, so
    [drawFrame] never paints, whatever the frames. *)
Theorem drawFrame_zero_totalFrames P frames index canvas :
  totalFrames P = 0%nat ->
  drawFrame P frames index canvas = canvas.
Proof.
  intros Hz. unfold drawFrame.
  rewrite (array_get_inject _ _ _ (frameIndex_clamped P index)).
  unfold clamped. rewrite Hz. by rewrite decide_True by lia.
Qed.

(** * Further properties of the binding effect *)

(** The effect binds exactly when the load has settled, the frame set
    has [totalFrames] elements, the canvas is mounted and yields a 2d
    context, and the container and the text box are mounted. *)
Lemma bindEffect_binds_iff P r refs :
  is_Some (bindEffect P r refs) <->
  isLoading r = false /\
  length (imageFrames r) = totalFrames P /\
  (exists canvas, canvasRef refs = Some canvas /\
                  has_context2d canvas = true) /\
  containerRef refs = true /\
  is_Some (textBoxRef refs).
Proof.
  unfold bindEffect. split.
  - destruct (isLoading r); [by intros [? [=]] |].
    destruct (length (imageFrames r) =? totalFrames P)%nat eqn:E;
      [| by intros [? [=]]].
    apply Nat.eqb_eq in E. simpl.
    destruct (canvasRef refs) as [canvas |]; [| by intros [? [=]]].
    destruct (containerRef refs); [| by intros [? [=]]].
    destruct (textBoxRef refs) as [box |]; [| by intros [? [=]]].
    destruct (has_context2d canvas) eqn:Hc; [| by intros [? [=]]].
    intros _. split_and!; eauto.
  - intros (-> & Hlen & (canvas & -> & Hc) & -> & [box ->]).
    apply Nat.eqb_eq in Hlen. rewrite Hlen, Hc. simpl. by eexists.
Qed.

Lemma bindEffect_mounted P r canvas box :
  has_context2d canvas = true ->
  bindEffect P r
    {| canvasRef := Some canvas; containerRef := true;
       textBoxRef := Some box |} =
  if isLoading r || negb (length (imageFrames r) =? totalFrames P)%nat
  then None
  else Some {|
    bound_canvas := drawFrame P (imageFrames r) 0 canvas;
    bound_textBox := gsap_set_textBox 100 0 box;
    tl := {|
      scrollTrigger :=
        {| pin := true; end_offset := totalScrollDistance P;
           scrub := 1 # 10 |};
      children :=
        [ {| target := frameObject;
             vars := [("index"%string, num (totalFrames P) - 1)];
             ease := ease_none; duration := Some 1; position := 0 |};
          {| target := textBox;
             vars := [("y"%string, 0); ("opacity"%string, 1)];
             ease := ease_power2_out; duration := None;
             position := startTime P |} ] |} |}.
Proof. intros Hc. unfold bindEffect. simpl. by rewrite Hc. Qed.

(** X10: after a settled load, with everything mounted, the renderer is
    bound if and only if every one of the [totalFrames] fetches
    succeeded. *)
Theorem settled_load_binds_iff_complete P evs canvas box :
  settles P evs ->
  has_context2d canvas = true ->
  is_Some (bindEffect P (loadImages P evs)
             {| canvasRef := Some canvas; containerRef := true;
                textBoxRef := Some box |}) <->
  successCount evs = totalFrames P.
Proof.
  intros Hp Hc. rewrite (bindEffect_mounted _ _ _ _ Hc).
  destruct (loadImages_settled_state P evs Hp) as [-> ->]. simpl.
  destruct (successCount evs =? totalFrames P)%nat eqn:E; simpl.
  - apply Nat.eqb_eq in E. split; [done | by eexists].
  - apply Nat.eqb_neq in E. split; [by intros [? [=]] | done].
Qed.

(** X11: while a fetch is still unresolved nothing is bound, whatever is
    mounted: no frame is painted and no timeline exists before
    settlement. *)
Theorem no_binding_before_settlement P evs refs i :
  observable P evs ->
  i ∈ issued P -> i ∉ evs.*1 ->
  bindEffect P (loadImages P evs) refs = None.
Proof.
  intros Hobs Hi Hn. rewrite loadImages_handlers by done.
  rewrite decide_False.
  - unfold bindEffect. by rewrite handlers_isLoading.
  - intros E. by apply (proj1 (all_resolved P evs) E) in Hi.
Qed.

(** * Further properties of the loader *)

Lemma settled_frames P evs :
  settles P evs ->
  imageFrames (loadImages P evs) = omap (loaded_image P evs) (issued P).
Proof.
  intros Hp. rewrite loadImages_settled, settle_imageFrames by done.
  by apply handlers_filter_Boolean, settles_observable.
Qed.

Lemma settles_length P evs :
  settles P evs -> length evs = length (issued P).
Proof.
  intros Hp. apply Permutation_length in Hp. by rewrite length_fmap in Hp.
Qed.

Lemma issued_length P : length (issued P) = Nat.max 1 (totalFrames P).
Proof. rewrite issued_seq, length_seq. lia. Qed.

Lemma filter_length_all {A} (Q : A -> Prop) `{forall x, Decision (Q x)}
    (l : list A) :
  length (filter Q l) = length l -> forall x, x ∈ l -> Q x.
Proof.
  induction l as [| y l IH]; intros Hlen x Hx; [by apply elem_of_nil in Hx |].
  rewrite filter_cons in Hlen. destruct (decide (Q y)) as [Hy | Hy].
  - simpl in Hlen. apply elem_of_cons in Hx as [-> | Hx]; [done |].
    apply IH; [lia | done].
  - pose proof (length_filter Q l). simpl in Hlen. lia.
Qed.

(** A load with [totalFrames] successes has no failure. *)
Lemma complete_load_all_loaded P evs :
  settles P evs -> (1 <= totalFrames P)%nat ->
  successCount evs = totalFrames P ->
  forall ev, ev ∈ evs -> is_loaded ev.2 = true.
Proof.
  intros Hp Hn Hc.
  apply (filter_length_all (fun ev : Event => is_loaded ev.2 = true)).
  change (successCount evs = length evs).
  rewrite Hc, (settles_length P evs Hp), issued_length. lia.
Qed.

(** X12: binding after a complete load paints the first frame: the bound
    canvas has the dimensions of the image fetched from [firstFrameSrc],
    and the last call made on it draws that image at origin and native
    size. *)
Theorem binding_paints_first_frame P evs canvas box :
  settles P evs ->
  (1 <= totalFrames P)%nat ->
  successCount evs = totalFrames P ->
  has_context2d canvas = true ->
  exists b w h,
    bindEffect P (loadImages P evs)
      {| canvasRef := Some canvas; containerRef := true;
         textBoxRef := Some box |} = Some b /\
    (1%nat, Loaded w h) ∈ evs /\
    dims (bound_canvas b) = (w, h) /\
    last (calls (bound_canvas b)) =
      Some (DrawImage {| src := firstFrameSrc P; img_width := w;
                         img_height := h |} 0 0 w h).
Proof.
  intros Hp Hn Hc Hctx.
  pose proof (settles_observable P evs Hp) as Hobs.
  assert (exists w h, (1%nat, Loaded w h) ∈ evs) as (w & h & Hin).
  { assert (1%nat ∈ evs.*1) as Hi by (rewrite Hp; left).
    apply list_elem_of_fmap in Hi as [[j res] [Hj Hin]]. simpl in Hj.
    subst j. pose proof (complete_load_all_loaded P evs Hp Hn Hc _ Hin) as Hl.
    destruct res as [w h |]; [eauto | done]. }
  assert (imageFrames (loadImages P evs) !! 0%nat =
          Some (mkImage P 1 w h)) as Hfirst.
  { rewrite settled_frames by done. unfold issued. csimpl.
    unfold loaded_image at 1.
    by rewrite (outcome_elem_of evs 1 (Loaded w h)) by (apply Hobs || done). }
  rewrite (bindEffect_mounted _ _ _ _ Hctx).
  destruct (loadImages_settled_state P evs Hp) as [Hload Hlen].
  rewrite Hload, Hlen, Hc, Nat.eqb_refl. simpl.
  eexists _, w, h. split; [done |]. split; [done |]. simpl.
  assert (array_get (imageFrames (loadImages P evs)) (frameIndex P 0) =
          Some (mkImage P 1 w h)) as Hget.
  { rewrite array_get_clamped by done. unfold clamped.
    change (Qfloor 0) with 0%Z. rewrite Z.max_id, Z.min_r by lia. done. }
  destruct (drawFrame_calls P _ 0 canvas _ Hget) as (Hcalls & Hdims & _).
  split; [done |]. rewrite Hcalls, !last_app. done.
Qed.

Lemma loadImages_errors P evs :
  observable P evs ->
  errors (console (loadImages P evs)) =
  error_entry P <$> (filter (fun ev => is_loaded ev.2 = false) evs).*1.
Proof.
  intros Hobs. rewrite loadImages_handlers by done. case_decide.
  - rewrite settle_console, handlers_console. unfold errors at 1.
    rewrite filter_app.
    fold (errors (error_entry P <$>
      (filter (fun ev => is_loaded ev.2 = false) evs).*1)).
    rewrite errors_error_entry. case_decide; by rewrite app_nil_r.
  - rewrite handlers_console. apply errors_error_entry.
Qed.

Lemma filter_loaded_split (evs : list Event) :
  (length (filter (fun ev => is_loaded ev.2 = true) evs) +
   length (filter (fun ev => is_loaded ev.2 = false) evs))%nat = length evs.
Proof.
  induction evs as [| ev evs IH]; [done |].
  unfold Event in *.
  rewrite !filter_cons. destruct (is_loaded ev.2); simpl; lia.
Qed.

(** X13: after settlement every issued fetch is accounted for: the frames
    of the set and the logged errors together number the fetches issued,
    which are [totalFrames], or one when [totalFrames] is 0. *)
Theorem settled_load_accounting P evs :
  settles P evs ->
  (length (imageFrames (loadImages P evs)) +
   length (errors (console (loadImages P evs))))%nat =
  Nat.max 1 (totalFrames P).
Proof.
  intros Hp. destruct (loadImages_settled_state P evs Hp) as [_ ->].
  rewrite loadImages_errors by by apply settles_observable.
  rewrite !length_fmap. unfold successCount.
  by rewrite filter_loaded_split, (settles_length P evs Hp), issued_length.
Qed.

Lemma omap_all_Some {A B} (f : A -> option B) (l : list A) :
  (forall y, y ∈ l -> is_Some (f y)) ->
  length (omap f l) = length l /\
  forall k, omap f l !! k = l !! k ≫= f.
Proof.
  induction l as [| y l IH]; intros Hall; [done |].
  destruct (Hall y) as [b Hb]; [left |].
  destruct IH as [IHlen IHlook]; [intros z Hz; apply Hall; by right |].
  csimpl. rewrite Hb. simpl. split; [by rewrite IHlen |].
  intros [| k]; simpl; [done | apply IHlook].
Qed.

Lemma loaded_image_not_issued P evs i :
  observable P evs -> i ∉ issued P -> loaded_image P evs i = None.
Proof.
  intros Hobs Hi. unfold loaded_image. rewrite outcome_None; [done |].
  intros Hin. by apply Hi, Hobs.
Qed.

(** X14: a single failed fetch compacts the set: when only the fetch of
    source index [j] failed, the positions before [j - 1] hold their own
    frame and every later position holds the frame of the next source
    index, shifted down by one. *)
Theorem single_failure_shifts_frames P evs j k :
  settles P evs ->
  outcome evs j = Some Failed ->
  (forall ev, ev ∈ evs -> ev.1 <> j -> is_loaded ev.2 = true) ->
  imageFrames (loadImages P evs) !! k =
  loaded_image P evs (if decide (S k < j)%nat then S k else S (S k)).
Proof.
  intros Hp Hj Hrest.
  pose proof (settles_observable P evs Hp) as Hobs.
  assert (j ∈ issued P) as Hiss.
  { apply outcome_Some in Hj. apply Hobs, list_elem_of_fmap.
    by exists (j, Failed). }
  rewrite issued_seq in Hiss. apply elem_of_seq in Hiss.
  set (N := S (totalFrames P - 1)) in *.
  assert (forall i, i ∈ issued P -> i <> j ->
            is_Some (loaded_image P evs i)) as Hsome.
  { intros i Hi Hne. rewrite <- Hp in Hi.
    apply list_elem_of_fmap in Hi as [[i' res] [-> Hin]]. simpl in *.
    specialize (Hrest _ Hin Hne). destruct res as [w h |]; [| done].
    unfold loaded_image.
    rewrite (outcome_elem_of evs i' (Loaded w h)) by (apply Hobs || done).
    by eexists. }
  rewrite settled_frames by done. rewrite issued_seq. fold N.
  replace N with ((j - 1) + S (N - j))%nat by lia.
  rewrite seq_app. replace (1 + (j - 1))%nat with j by lia.
  rewrite omap_app. csimpl. unfold loaded_image at 2. rewrite Hj.
  destruct (omap_all_Some (loaded_image P evs) (seq 1 (j - 1)))
    as [Hlen1 Hlook1].
  { intros i Hi. apply elem_of_seq in Hi.
    apply Hsome; [| lia]. rewrite issued_seq. apply elem_of_seq. lia. }
  destruct (omap_all_Some (loaded_image P evs) (seq (S j) (N - j)))
    as [Hlen2 Hlook2].
  { intros i Hi. apply elem_of_seq in Hi.
    apply Hsome; [| lia]. rewrite issued_seq. apply elem_of_seq. lia. }
  rewrite length_seq in Hlen1.
  case_decide as Hk.
  - rewrite lookup_app_l by lia.
    rewrite Hlook1, lookup_seq_lt by lia. done.
  - rewrite lookup_app_r by lia. rewrite Hlen1, Hlook2.
    destruct (decide (k - (j - 1) < N - j)%nat) as [Hin | Hout].
    + rewrite lookup_seq_lt by done. simpl. f_equal. lia.
    + rewrite lookup_seq_ge by lia. simpl. symmetry.
      apply loaded_image_not_issued; [done |].
      rewrite issued_seq. fold N. rewrite elem_of_seq. lia.
Qed.

(** * What is rendered *)

(** X15: while some fetch is unresolved the component renders the
    placeholder image, displayed exactly when the first-frame fetch has
    already succeeded; once every fetch has resolved it renders the canvas,
    whether or not every frame loaded. *)
Theorem render_placeholder_then_canvas P evs :
  observable P evs ->
  ((forall i, i ∈ issued P -> i ∈ evs.*1) ->
   render P (loadImages P evs) = CanvasEl) /\
  (forall i, i ∈ issued P -> i ∉ evs.*1 ->
   exists shown,
     render P (loadImages P evs) = PlaceholderImg (firstFrameSrc P) shown /\
     (shown = true <-> exists w h, (1%nat, Loaded w h) ∈ evs)).
Proof.
  intros Hobs. unfold render. rewrite loadImages_handlers by done. split.
  - intros Hall. apply all_resolved in Hall.
    by rewrite decide_True, settle_isLoading by done.
  - intros i Hi Hn. rewrite decide_False.
    + rewrite handlers_isLoading. eexists. split; [done |].
      apply handlers_isFirstImageLoaded, Hobs.
    + intros E. by apply (proj1 (all_resolved P evs) E) in Hi.
Qed.

(** X16: a settled load that is not complete swaps the placeholder for a
    canvas on which nothing is ever painted: the canvas is rendered and no
    binding exists, whatever is mounted. *)
Theorem incomplete_load_shows_unpainted_canvas P evs refs :
  settles P evs ->
  successCount evs <> totalFrames P ->
  render P (loadImages P evs) = CanvasEl /\
  bindEffect P (loadImages P evs) refs = None.
Proof.
  intros Hp Hne. destruct (loadImages_settled_state P evs Hp) as [Hl Hlen].
  split.
  - unfold render. by rewrite Hl.
  - apply bindEffect_incomplete. by rewrite Hlen.
Qed.

(** * Frame paths *)

Lemma string_length_app (a b : string) :
  String.length (a +:+ b) = (String.length a + String.length b)%nat.
Proof. induction a as [| c a IH]; simpl; [done | by rewrite IH]. Qed.

Lemma string_app_inv_r (a b s : string) : a +:+ s = b +:+ s -> a = b.
Proof.
  revert b. induction a as [| c a IH]; intros [| d b] H; simpl in *.
  - done.
  - apply (f_equal String.length) in H. simpl in H.
    rewrite !string_length_app in H. simpl in H. lia.
  - apply (f_equal String.length) in H. simpl in H.
    rewrite !string_length_app in H. simpl in H. lia.
  - injection H as -> H. f_equal. by apply IH.
Qed.

(** X17: the default path rule sends distinct source indices to distinct
    URLs, so no two frames of a set are fetched from the same place. *)
Theorem DEFAULT_FRAME_PATH_FORMAT_inj (i j : nat) :
  i <> j -> DEFAULT_FRAME_PATH_FORMAT i <> DEFAULT_FRAME_PATH_FORMAT j.
Proof.
  unfold DEFAULT_FRAME_PATH_FORMAT. intros Hne H.
  apply String.app_inj, string_app_inv_r in H.
  by apply pretty_nat_inj in H.
Qed.

(** * Position of the reveal *)

(** X19: [START_FRAME] is fixed at 30, so the position given to the text
    tween lies within the frame tween, which ends at time 1, only when there
    are at least 31 frames. *)
Theorem startTime_within_frame_tween P :
  (2 <= totalFrames P)%nat ->
  startTime P <= 1 <-> (31 <= totalFrames P)%nat.
Proof.
  intros Hn. unfold startTime, START_FRAME.
  assert (0 < num (totalFrames P) - 1) as Hpos.
  { rewrite num_pred. change 0 with (inject_Z 0). rewrite <- Zlt_Qlt. lia. }
  split.
  - intros Hle.
    apply (Qmult_le_compat_r _ _ (num (totalFrames P) - 1)) in Hle;
      [| by apply Qlt_le_weak].
    rewrite Qmult_1_l, Qmult_comm, Qmult_div_r in Hle.
    + rewrite num_pred in Hle. change 30 with (inject_Z 30) in Hle.
      rewrite <- Zle_Qle in Hle. lia.
    + intros E. rewrite E in Hpos. by apply Qlt_irrefl in Hpos.
  - intros Hge. apply Qle_shift_div_r; [done |].
    rewrite Qmult_1_l, num_pred. change 30 with (inject_Z 30).
    rewrite <- Zle_Qle. lia.
Qed.

(** * The further properties on the sample loads *)

Lemma drawFrame_complete_set_paints_witness :
  exists img,
    imageFrames (loadImages three_frames out_of_order)
      !! Z.to_nat (clamped three_frames (-(7 # 2))) = Some img /\
    calls (drawFrame three_frames
             (imageFrames (loadImages three_frames out_of_order))
             (-(7 # 2)) blank_canvas) =
      calls blank_canvas ++
      (if needs_resize blank_canvas img
       then [SetWidth (img_width img); SetHeight (img_height img)]
       else []) ++
      paint_calls img /\
    dims (drawFrame three_frames
            (imageFrames (loadImages three_frames out_of_order))
            (-(7 # 2)) blank_canvas) = img_dims img.
Proof.
  apply (drawFrame_complete_set_paints three_frames).
  - simpl. lia.
  - by vm_compute.
Defined.

Lemma drawFrame_clamps_index_witness :
  drawFrame three_frames
    (imageFrames (loadImages three_frames out_of_order)) (-(7 # 2))
    blank_canvas =
  drawFrame three_frames
    (imageFrames (loadImages three_frames out_of_order)) 0 blank_canvas /\
  drawFrame three_frames
    (imageFrames (loadImages three_frames out_of_order)) 9 blank_canvas =
  drawFrame three_frames
    (imageFrames (loadImages three_frames out_of_order))
    (num (totalFrames three_frames) - 1) blank_canvas.
Proof.
  split.
  - apply (drawFrame_clamps_index three_frames). discriminate.
  - apply (drawFrame_clamps_index three_frames); [simpl; lia | discriminate].
Defined.

Lemma scroll_never_reallocates_witness :
  let frames :=
    imageFrames (loadImages three_frames (all_loaded three_frames 1920 1080)) in
  let canvas := drawFrame three_frames frames 0 blank_canvas in
  dims (scroll three_frames frames [1 # 3; 1; 1 # 2] canvas) = dims canvas /\
  resizes (scroll three_frames frames [1 # 3; 1; 1 # 2] canvas) =
    resizes canvas /\
  length (calls (scroll three_frames frames [1 # 3; 1; 1 # 2] canvas)) =
    (length (calls canvas) + 2 * 3)%nat /\
  exists imgs,
    Forall2 (fun p img =>
               array_get frames
                 (frameIndex three_frames (newIndex three_frames p)) =
               Some img)
      [1 # 3; 1; 1 # 2] imgs /\
    calls (scroll three_frames frames [1 # 3; 1; 1 # 2] canvas) =
      calls canvas ++ concat (paint_calls <$> imgs).
Proof.
  intros frames canvas.
  apply (scroll_never_reallocates three_frames frames [1 # 3; 1; 1 # 2] canvas).
  - simpl. lia.
  - by vm_compute.
  - intros img Himg. vm_compute in Himg.
    repeat (apply elem_of_cons in Himg as [-> | Himg]; [by vm_compute |]).
    by apply elem_of_nil in Himg.
Defined.

Lemma last_frame_only_at_end_witness :
  mapProgressToFrame App_props carried_progress ==
    num (totalFrames App_props) - 1 <->
  carried_progress == 1.
Proof.
  apply (last_frame_only_at_end App_props carried_progress).
  - vm_compute. lia.
  - by vm_compute.
  - split; discriminate.
Defined.

Lemma onUpdate_endpoints_witness :
  let frames := imageFrames (loadImages three_frames out_of_order) in
  array_get frames (mapProgressToFrame three_frames 0) = head frames /\
  array_get frames (mapProgressToFrame three_frames 1) = last frames.
Proof.
  intros frames. apply (onUpdate_endpoints three_frames frames).
  - simpl. lia.
  - by vm_compute.
Defined.

Lemma drawFrame_zero_totalFrames_witness :
  let P := {| firstFrameSrc := "/frames/first.webp"; totalFrames := 0;
              totalFrames_safe := eq_refl;
              getFramePath := DEFAULT_FRAME_PATH_FORMAT;
              scrollSensitivity := 15; pinHeight := "100vh" |} in
  drawFrame P (imageFrames (loadImages P [(1%nat, Loaded 1920 1080)])) 0
    blank_canvas = blank_canvas.
Proof.
  intros P. apply (drawFrame_zero_totalFrames P). reflexivity.
Defined.

Lemma settled_load_binds_iff_complete_witness :
  is_Some (bindEffect three_frames (loadImages three_frames out_of_order)
             {| canvasRef := Some blank_canvas; containerRef := true;
                textBoxRef := Some {| tb_y := 0; tb_opacity := 1 |} |}) <->
  successCount out_of_order = totalFrames three_frames.
Proof.
  apply (settled_load_binds_iff_complete three_frames out_of_order).
  - exact out_of_order_settles.
  - reflexivity.
Defined.

Lemma no_binding_before_settlement_witness :
  bindEffect three_frames (loadImages three_frames first_fails)
    mounted_refs = None.
Proof.
  apply (no_binding_before_settlement three_frames first_fails mounted_refs 2).
  - exact first_fails_observable.
  - by vm_compute; right; left.
  - vm_compute. intros H. apply elem_of_cons in H as [H | H]; [done |].
    by apply elem_of_nil in H.
Defined.

Lemma binding_paints_first_frame_witness :
  exists b w h,
    bindEffect three_frames (loadImages three_frames out_of_order)
      {| canvasRef := Some blank_canvas; containerRef := true;
         textBoxRef := Some {| tb_y := 0; tb_opacity := 1 |} |} = Some b /\
    (1%nat, Loaded w h) ∈ out_of_order /\
    dims (bound_canvas b) = (w, h) /\
    last (calls (bound_canvas b)) =
      Some (DrawImage {| src := firstFrameSrc three_frames; img_width := w;
                         img_height := h |} 0 0 w h).
Proof.
  apply (binding_paints_first_frame three_frames out_of_order).
  - exact out_of_order_settles.
  - simpl. lia.
  - reflexivity.
  - reflexivity.
Defined.

Lemma settled_load_accounting_witness :
  (length (imageFrames (loadImages three_frames second_fails)) +
   length (errors (console (loadImages three_frames second_fails))))%nat =
  Nat.max 1 (totalFrames three_frames).
Proof.
  apply (settled_load_accounting three_frames second_fails).
  exact second_fails_settles.
Defined.

Lemma single_failure_shifts_frames_witness :
  imageFrames (loadImages three_frames second_fails) !! 1%nat =
  loaded_image three_frames second_fails 3.
Proof.
  apply (single_failure_shifts_frames three_frames second_fails 2 1).
  - exact second_fails_settles.
  - reflexivity.
  - intros ev Hev Hne. unfold second_fails in Hev.
    repeat (apply elem_of_cons in Hev as [-> | Hev]; [done |]).
    by apply elem_of_nil in Hev.
Defined.

Lemma render_placeholder_then_canvas_witness :
  ((forall i, i ∈ issued three_frames -> i ∈ first_fails.*1) ->
   render three_frames (loadImages three_frames first_fails) = CanvasEl) /\
  (forall i, i ∈ issued three_frames -> i ∉ first_fails.*1 ->
   exists shown,
     render three_frames (loadImages three_frames first_fails) =
       PlaceholderImg (firstFrameSrc three_frames) shown /\
     (shown = true <-> exists w h, (1%nat, Loaded w h) ∈ first_fails)).
Proof.
  apply (render_placeholder_then_canvas three_frames first_fails).
  exact first_fails_observable.
Defined.

Lemma incomplete_load_shows_unpainted_canvas_witness :
  render three_frames (loadImages three_frames second_fails) = CanvasEl /\
  bindEffect three_frames (loadImages three_frames second_fails)
    mounted_refs = None.
Proof.
  apply (incomplete_load_shows_unpainted_canvas three_frames second_fails).
  - exact second_fails_settles.
  - vm_compute. lia.
Defined.

Lemma DEFAULT_FRAME_PATH_FORMAT_inj_witness :
  DEFAULT_FRAME_PATH_FORMAT 2 <> DEFAULT_FRAME_PATH_FORMAT 12.
Proof.
  apply (DEFAULT_FRAME_PATH_FORMAT_inj 2 12). lia.
Defined.

Lemma startTime_within_frame_tween_witness :
  startTime App_props <= 1 <-> (31 <= totalFrames App_props)%nat.
Proof.
  apply (startTime_within_frame_tween App_props). vm_compute. lia.
Defined.

Lemma loadImages_order_irrelevant_witness :
  imageFrames (loadImages three_frames out_of_order) =
  imageFrames (loadImages three_frames
    [ (1%nat, Loaded 1920 1080); (2%nat, Loaded 1280 720);
      (3%nat, Loaded 1920 1080) ]).
Proof.
  apply (loadImages_order_irrelevant three_frames).
  - exact out_of_order_settles.
  - unfold out_of_order.
    etrans; [apply perm_swap | apply perm_skip, perm_swap].
Defined.
